(** * License classification of dependency changes

    A shallow embedding of the license pipeline of the dependency review
    action (the module exporting [getInvalidLicenseChanges], imported by
    [src/main.ts] as [./licenses]): grouping of changes, the GitHub license
    fallback, and the allow/deny evaluation with its validity cache.

    JavaScript values are modelled as follows.
    - A string is a [string]; its [String.length] stands for the JS
      [.length] (one character per code unit).
    - [string | null] is [option string]; an optional policy list
      ([allow?: string[]]) is [option (list string)].
    - An array is a [list]; [push] appends at the end.
    - [Map<string, boolean>] is [gmap string bool]; [get] returning
      [undefined] is a lookup returning [None].
    - A call that may throw or reach the outside world is a computation
      [Js A]: it maps the world (the log of what was asked of the
      collaborators so far) to an [Outcome] and the world after.  [await]
      is sequencing. *)

From Stdlib Require Import Ascii.
From stdpp Require Import base option list strings gmap.

Local Open Scope string_scope.
Local Open Scope list_scope.

(** ** Data model *)

Inductive ChangeType : Type := added | removed.

#[global] Instance ChangeType_eq_dec : EqDecision ChangeType.
Proof. solve_decision. Defined.

(** One dependency change; the fields the pipeline reads or copies. *)
Record Change : Type := {
  name : string;
  version : string;
  manifest : string;
  change_type : ChangeType;
  license : option string;
  source_repository_url : option string
}.

#[global] Instance Change_eq_dec : EqDecision Change.
Proof. solve_decision. Defined.

(** [{...change, license: l}]: a new object, every other field copied. *)
Definition with_license (change : Change) (l : option string) : Change :=
  {| name := name change;
     version := version change;
     manifest := manifest change;
     change_type := change_type change;
     license := l;
     source_repository_url := source_repository_url change |}.

(** The [licenses] parameter of [getInvalidLicenseChanges]. *)
Record Policy : Type := {
  allow : option (list string);
  deny : option (list string)
}.

Module Grouped.
(** The record [groupChanges] returns. *)
Record t : Type := mk {
  licensed : list Change;
  unlicensed : list Change
}.
End Grouped.

(** The record [getInvalidLicenseChanges] returns. *)
Record InvalidLicenseChanges : Type := {
  unlicensed : list Change;
  unresolved : list Change;
  forbidden : list Change
}.

(** The result of [parseGitHubURL] when it is not [null]. *)
Record GitHubURL : Type := {
  owner : string;
  repo : string
}.

(** What [parseGitHubURL] reads of a parsed [URL] object. *)
Record URL : Type := {
  host : string;
  pathname : string
}.

(** [response.data.license] of the licenses endpoint, when it is an object. *)
Record RepoLicense : Type := {
  spdx_id : option string
}.

(** ** Computations: exceptions and the world *)

Inductive Outcome (A : Type) : Type :=
| Returned (a : A)
| Thrown.
Arguments Returned {A} a.
Arguments Thrown {A}.

(** The world records, in order, the repositories whose license was
    requested and the [(license, expression)] pairs handed to
    [spdxSatisfies]. *)
Record World : Type := {
  requests : list (string * string);
  checks : list (string * string)
}.

Definition Js (A : Type) : Type := World → Outcome A * World.

Definition ret {A} (a : A) : Js A := λ w, (Returned a, w).

Definition bind {A B} (m : Js A) (k : A → Js B) : Js B :=
  λ w, match m w with
       | (Returned a, w') => k a w'
       | (Thrown, w') => (Thrown, w')
       end.

Notation "'let*' x ':=' m 'in' k" := (bind m (λ x, k))
  (at level 10, x name, m at level 100, k at level 200, only parsing).

(** [try { body } catch (_) { handler }] *)
Definition try_catch {A} (body handler : Js A) : Js A :=
  λ w, match body w with
       | (Returned a, w') => (Returned a, w')
       | (Thrown, w') => handler w'
       end.

(** [array.find(p)] for a predicate that may throw: the first element on
    which [p] answers [true]; an exception of [p] ends the search. *)
Fixpoint Array_find {A} (p : A → Js bool) (l : list A) : Js (option A) :=
  match l with
  | [] => ret None
  | x :: rest =>
      let* b := p x in
      if b then ret (Some x) else Array_find p rest
  end.

(** [Promise.all(array.map(f))]: the callbacks start in array order and
    the results keep that order. *)
Fixpoint Promise_all_map {A B} (f : A → Js B) (l : list A) : Js (list B) :=
  match l with
  | [] => ret []
  | x :: rest =>
      let* y := f x in
      let* ys := Promise_all_map f rest in
      ret (y :: ys)
  end.

(** [for (const x of l) { st = body st x }] over mutable locals [st]. *)
Fixpoint for_of {S A} (body : S → A → Js S) (st : S) (l : list A) : Js S :=
  match l with
  | [] => ret st
  | x :: rest => let* st' := body st x in for_of body st' rest
  end.

(** [s.split(sep)] for a one-character separator. *)
Fixpoint split (sep : ascii) (s : string) : list string :=
  match s with
  | EmptyString => [EmptyString]
  | String c rest =>
      if decide (c = sep) then EmptyString :: split sep rest
      else match split sep rest with
           | first :: others => String c first :: others
           | [] => [String c EmptyString]
           end
  end.

(** ** The collaborators

    The platform and the packages the module imports, as an interface.
    - [URL_parse url]: the [URL] constructor; [None] when it throws.
    - [isSPDXValid]: the validity test imported from [./utils.js].
    - [spdx_satisfies license expression]: the [spdx-satisfies] package;
      [None] when it throws.
    - [licenses_getForRepo n owner repo]: the answer to the [n]-th license
      request of the run; [None] when the request fails, [Some None] when
      the repository data has no license object. *)
Class Externals : Type := {
  URL_parse : string → option URL;
  isSPDXValid : string → bool;
  spdx_satisfies : string → string → option bool;
  licenses_getForRepo : nat → string → string → option (option RepoLicense)
}.

Section Licenses.
Context `{!Externals}.

Definition new_URL (url : string) : Js URL :=
  λ w, match URL_parse url with
       | Some parsed => (Returned parsed, w)
       | None => (Thrown, w)
       end.

Definition spdxSatisfies (l expression : string) : Js bool :=
  λ w, let w' := {| requests := requests w;
                    checks := checks w ++ [(l, expression)] |} in
       match spdx_satisfies l expression with
       | Some b => (Returned b, w')
       | None => (Thrown, w')
       end.

(** [octokitClient().rest.licenses.getForRepo({owner, repo})], giving
    [response.data.license]. *)
Definition getForRepo (owner repo : string) : Js (option RepoLicense) :=
  λ w, let w' := {| requests := requests w ++ [(owner, repo)];
                    checks := checks w |} in
       match licenses_getForRepo (length (requests w)) owner repo with
       | Some data => (Returned data, w')
       | None => (Thrown, w')
       end.

Definition fetchGHLicense (owner repo : string) : Js (option string) :=
  try_catch
    (let* response := getForRepo owner repo in
     ret (match response with
          | Some l => spdx_id l
          | None => None
          end))
    (ret None).

Definition parseGitHubURL (url : string) : Js (option GitHubURL) :=
  try_catch
    (let* parsed := new_URL url in
     if decide (host parsed ≠ "github.com") then ret None
     else
       let components := split "/"%char (pathname parsed) in
       if decide (length components < 3) then ret None
       else
         ret (Some {| owner := components !!! 1; repo := components !!! 2 |}))
    (ret None).

(** The callback [setGHLicenses] maps over the changes. *)
Definition setGHLicenses_callback (change : Change) : Js Change :=
  match license change, source_repository_url change with
  | None, Some url =>
      let* githubUrl := parseGitHubURL url in
      match githubUrl with
      | None => ret change
      | Some gh =>
          let* l := fetchGHLicense (owner gh) (repo gh) in
          ret (with_license change l)
      end
  | _, _ => ret change
  end.

Definition setGHLicenses (changes : list Change) : Js (list Change) :=
  Promise_all_map setGHLicenses_callback changes.

Definition truncatedDGLicense (l : string) : bool :=
  bool_decide (String.length l = 255) && negb (isSPDXValid l).

(** The locals of [groupChanges]: [result] and [ghChanges]. *)
Record GroupLocals : Type := {
  result : Grouped.t;
  ghChanges : list Change
}.

Definition push_licensed (change : Change) (r : Grouped.t) : Grouped.t :=
  Grouped.mk (Grouped.licensed r ++ [change]) (Grouped.unlicensed r).

Definition push_unlicensed (change : Change) (r : Grouped.t) : Grouped.t :=
  Grouped.mk (Grouped.licensed r) (Grouped.unlicensed r ++ [change]).

(** One iteration of the first loop of [groupChanges]. *)
Definition groupChanges_body (st : GroupLocals) (change : Change) : GroupLocals :=
  if decide (change_type change = removed) then st
  else
    match license change with
    | None =>
        if decide (source_repository_url change ≠ None)
        then {| result := result st; ghChanges := ghChanges st ++ [change] |}
        else {| result := push_unlicensed change (result st);
                ghChanges := ghChanges st |}
    | Some l =>
        if truncatedDGLicense l
           && bool_decide (source_repository_url change ≠ None)
        then {| result := result st; ghChanges := ghChanges st ++ [change] |}
        else {| result := push_licensed change (result st);
                ghChanges := ghChanges st |}
    end.

(** One iteration of the second loop of [groupChanges]. *)
Definition groupChanges_merge (r : Grouped.t) (change : Change) : Grouped.t :=
  match license change with
  | None => push_unlicensed change r
  | Some _ => push_licensed change r
  end.

Definition groupChanges (changes : list Change) : Js Grouped.t :=
  let st := foldl groupChanges_body
              {| result := Grouped.mk [] []; ghChanges := [] |} changes in
  if decide (0 < length (ghChanges st)) then
    let* ghLicenses := setGHLicenses (ghChanges st) in
    ret (foldl groupChanges_merge (result st) ghLicenses)
  else ret (result st).

(** The locals of [getInvalidLicenseChanges] that its loop updates. *)
Record Locals : Type := {
  validityCache : gmap string bool;
  invalidLicenseChanges : InvalidLicenseChanges
}.

Definition validityCache_set (l : string) (b : bool) (st : Locals) : Locals :=
  {| validityCache := <[l := b]> (validityCache st);
     invalidLicenseChanges := invalidLicenseChanges st |}.

Definition unlicensed_push (change : Change) (st : Locals) : Locals :=
  let r := invalidLicenseChanges st in
  {| validityCache := validityCache st;
     invalidLicenseChanges :=
       {| unlicensed := unlicensed r ++ [change];
          unresolved := unresolved r;
          forbidden := forbidden r |} |}.

Definition unresolved_push (change : Change) (st : Locals) : Locals :=
  let r := invalidLicenseChanges st in
  {| validityCache := validityCache st;
     invalidLicenseChanges :=
       {| unlicensed := unlicensed r;
          unresolved := unresolved r ++ [change];
          forbidden := forbidden r |} |}.

Definition forbidden_push (change : Change) (st : Locals) : Locals :=
  let r := invalidLicenseChanges st in
  {| validityCache := validityCache st;
     invalidLicenseChanges :=
       {| unlicensed := unlicensed r;
          unresolved := unresolved r;
          forbidden := forbidden r ++ [change] |} |}.

(** The [try] block of the loop: match the license against [allow], or
    against [deny] when [allow] is absent, and record the answer. *)
Definition evaluate (policy : Policy) (l : string) (st : Locals) : Js Locals :=
  match allow policy with
  | Some allowed =>
      let* found := Array_find (spdxSatisfies l) allowed in
      ret (validityCache_set l (bool_decide (found ≠ None)) st)
  | None =>
      match deny policy with
      | Some denied =>
          let* found := Array_find (spdxSatisfies l) denied in
          ret (validityCache_set l (bool_decide (found = None)) st)
      | None => ret st
      end
  end.

(** One iteration of the loop of [getInvalidLicenseChanges]. *)
Definition getInvalidLicenseChanges_body
    (policy : Policy) (st : Locals) (change : Change) : Js Locals :=
  match license change with
  | None => ret st
  | Some l =>
      let* st1 :=
        if decide (l = "NOASSERTION") then ret (unlicensed_push change st)
        else if decide (validityCache st !! l = None) then
          try_catch (evaluate policy l st) (ret (unresolved_push change st))
        else ret st in
      if decide (validityCache st1 !! l = Some false)
      then ret (forbidden_push change st1)
      else ret st1
  end.

(** [getInvalidLicenseChanges] up to its [return]: the locals after the
    loop. *)
Definition getInvalidLicenseChanges_locals
    (changes : list Change) (policy : Policy) : Js Locals :=
  let* groupedChanges := groupChanges changes in
  for_of (getInvalidLicenseChanges_body policy)
    {| validityCache := ∅;
       invalidLicenseChanges :=
         {| unlicensed := Grouped.unlicensed groupedChanges;
            unresolved := [];
            forbidden := [] |} |}
    (Grouped.licensed groupedChanges).

Definition getInvalidLicenseChanges
    (changes : list Change) (policy : Policy) : Js InvalidLicenseChanges :=
  let* st := getInvalidLicenseChanges_locals changes policy in
  ret (invalidLicenseChanges st).

(** ** What a run computes

    The computations above never depend on the world they start from
    except through the number of requests already made; the definitions
    below name their results and the entries they add to the world. *)

Definition log_requests (rs : list (string * string)) (w : World) : World :=
  {| requests := requests w ++ rs; checks := checks w |}.

Definition log_checks (cs : list (string * string)) (w : World) : World :=
  {| requests := requests w; checks := checks w ++ cs |}.

(** The outcome of [find] over [exprs] with [spdxSatisfies l]. *)
Fixpoint find_outcome (l : string) (exprs : list string)
    : Outcome (option string) :=
  match exprs with
  | [] => Returned None
  | e :: rest =>
      match spdx_satisfies l e with
      | None => Thrown
      | Some true => Returned (Some e)
      | Some false => find_outcome l rest
      end
  end.

(** The checks that [find] performs: up to the first expression that is
    satisfied or throws. *)
Fixpoint find_checks (l : string) (exprs : list string)
    : list (string * string) :=
  match exprs with
  | [] => []
  | e :: rest =>
      (l, e) :: match spdx_satisfies l e with
                | Some false => find_checks l rest
                | _ => []
                end
  end.

(** The outcome of the [try] block for a license: the boolean it caches,
    none when no list is configured, or an exception. *)
Definition verdict (policy : Policy) (l : string) : Outcome (option bool) :=
  match allow policy with
  | Some allowed =>
      match find_outcome l allowed with
      | Returned found => Returned (Some (bool_decide (found ≠ None)))
      | Thrown => Thrown
      end
  | None =>
      match deny policy with
      | Some denied =>
          match find_outcome l denied with
          | Returned found => Returned (Some (bool_decide (found = None)))
          | Thrown => Thrown
          end
      | None => Returned None
      end
  end.

(** The checks of one pass through the [try] block for a license. *)
Definition verdict_checks (policy : Policy) (l : string)
    : list (string * string) :=
  match allow policy with
  | Some allowed => find_checks l allowed
  | None =>
      match deny policy with
      | Some denied => find_checks l denied
      | None => []
      end
  end.

(** The locals after one iteration of the evaluation loop. *)
Definition body_next (policy : Policy) (st : Locals) (change : Change) : Locals :=
  match license change with
  | None => st
  | Some l =>
      let st1 :=
        if decide (l = "NOASSERTION") then unlicensed_push change st
        else if decide (validityCache st !! l = None) then
          match verdict policy l with
          | Returned (Some b) => validityCache_set l b st
          | Returned None => st
          | Thrown => unresolved_push change st
          end
        else st in
      if decide (validityCache st1 !! l = Some false)
      then forbidden_push change st1
      else st1
  end.

(** The checks of one iteration of the evaluation loop. *)
Definition body_checks (policy : Policy) (st : Locals) (change : Change)
    : list (string * string) :=
  match license change with
  | None => []
  | Some l =>
      if decide (l = "NOASSERTION") then []
      else if decide (validityCache st !! l = None) then verdict_checks policy l
      else []
  end.

(** The checks of the whole evaluation loop. *)
Fixpoint loop_checks (policy : Policy) (st : Locals) (changes : list Change)
    : list (string * string) :=
  match changes with
  | [] => []
  | change :: rest =>
      body_checks policy st change
      ++ loop_checks policy (body_next policy st change) rest
  end.

(** How the evaluation loop treats a change, for a cache that holds only
    verdicts. *)
Inductive Signal : Type :=
| Skipped | NoAssertion | Accepted | Unresolved | Forbidden.

#[global] Instance Signal_eq_dec : EqDecision Signal.
Proof. solve_decision. Defined.

Definition signal (policy : Policy) (change : Change) : Signal :=
  match license change with
  | None => Skipped
  | Some l =>
      if decide (l = "NOASSERTION") then NoAssertion
      else match verdict policy l with
           | Thrown => Unresolved
           | Returned (Some false) => Forbidden
           | Returned _ => Accepted
           end
  end.

(** The changes of a list that carry the license [l]. *)
Definition carriers (l : string) (changes : list Change) : list Change :=
  filter (λ change, license change = Some l) changes.

(** The checks of a log that were made for the license [l]. *)
Definition checks_for (l : string) (log : list (string * string))
    : list (string * string) :=
  filter (λ check, check.1 = l) log.

(** A cache that holds nothing for "NOASSERTION" and only verdicts. *)
Definition cache_sound (policy : Policy) (cache : gmap string bool) : Prop :=
  cache !! "NOASSERTION" = None
  ∧ ∀ l b, cache !! l = Some b → verdict policy l = Returned (Some b).

(** The result of [parseGitHubURL]. *)
Definition parse_result (url : string) : option GitHubURL :=
  match URL_parse url with
  | None => None
  | Some parsed =>
      if decide (host parsed ≠ "github.com") then None
      else
        let components := split "/"%char (pathname parsed) in
        if decide (length components < 3) then None
        else Some {| owner := components !!! 1; repo := components !!! 2 |}
  end.

(** The path segments after the host: the components of the path after
    the (empty) one before the first "/". *)
Definition path_segments (parsed : URL) : list string :=
  tail (split "/"%char (pathname parsed)).

(** A URL that names no GitHub repository: the [URL] constructor throws
    on it, or its host is not "github.com", or fewer than two path
    segments follow the host. *)
Definition no_repository (url : string) : Prop :=
  match URL_parse url with
  | None => True
  | Some parsed =>
      host parsed ≠ "github.com" ∨ length (path_segments parsed) < 2
  end.

(** The result of [fetchGHLicense] for the [n]-th request of the run. *)
Definition fetch_result (n : nat) (owner repo : string) : option string :=
  match licenses_getForRepo n owner repo with
  | Some (Some l) => spdx_id l
  | _ => None
  end.

(** The repository [setGHLicenses] looks up for a change, if any. *)
Definition lookup_of (change : Change) : option GitHubURL :=
  match license change, source_repository_url change with
  | None, Some url => parse_result url
  | _, _ => None
  end.

(** The result of [setGHLicenses] when [n] requests were made before. *)
Fixpoint resolve_all (n : nat) (changes : list Change) : list Change :=
  match changes with
  | [] => []
  | change :: rest =>
      match lookup_of change with
      | None => change :: resolve_all n rest
      | Some gh =>
          with_license change (fetch_result n (owner gh) (repo gh))
          :: resolve_all (S n) rest
      end
  end.

(** The requests [setGHLicenses] makes. *)
Definition lookups (changes : list Change) : list (string * string) :=
  (λ gh, (owner gh, repo gh)) <$> omap lookup_of changes.

(** The three ways the first loop of [groupChanges] places a change. *)
Definition needs_lookup (change : Change) : Prop :=
  change_type change ≠ removed
  ∧ source_repository_url change ≠ None
  ∧ match license change with
    | None => True
    | Some l => truncatedDGLicense l = true
    end.

Definition directly_licensed (change : Change) : Prop :=
  change_type change ≠ removed
  ∧ ∃ l, license change = Some l
         ∧ ¬ (truncatedDGLicense l = true ∧ source_repository_url change ≠ None).

Definition directly_unlicensed (change : Change) : Prop :=
  change_type change ≠ removed
  ∧ license change = None
  ∧ source_repository_url change = None.

#[global] Instance needs_lookup_dec change : Decision (needs_lookup change).
Proof. unfold needs_lookup. destruct (license change); apply _. Defined.

#[global] Instance directly_licensed_dec change :
  Decision (directly_licensed change).
Proof.
  unfold directly_licensed. destruct (license change) as [l|].
  - destruct (decide (change_type change ≠ removed)) as [Ht|Ht];
      [|right; tauto].
    destruct (decide (truncatedDGLicense l = true
                      ∧ source_repository_url change ≠ None)) as [Hl|Hl].
    + right. intros [_ (l' & [= <-] & Hn)]. tauto.
    + left. eauto.
  - right. intros [_ (l' & [=] & _)].
Defined.

#[global] Instance directly_unlicensed_dec change :
  Decision (directly_unlicensed change).
Proof. unfold directly_unlicensed. apply _. Defined.

(** The result of [groupChanges] when [n] requests were made before. *)
Definition group_result (n : nat) (changes : list Change) : Grouped.t :=
  let resolved := resolve_all n (filter needs_lookup changes) in
  Grouped.mk
    (filter directly_licensed changes
     ++ filter (λ change, license change ≠ None) resolved)
    (filter directly_unlicensed changes
     ++ filter (λ change, license change = None) resolved).

(** The locals of [getInvalidLicenseChanges] when its loop starts, and
    after the loop, for the groups [g]. *)
Definition initial_locals (g : Grouped.t) : Locals :=
  {| validityCache := ∅;
     invalidLicenseChanges :=
       {| unlicensed := Grouped.unlicensed g;
          unresolved := [];
          forbidden := [] |} |}.

Definition final_locals (policy : Policy) (g : Grouped.t) : Locals :=
  foldl (body_next policy) (initial_locals g) (Grouped.licensed g).

End Licenses.

(** ** A test double for the collaborators

    A small stand-in for the platform and the packages, on which the
    pipeline can be run: four URLs parse, three identifiers are valid
    SPDX, satisfaction is identity of valid identifiers, and two
    repositories answer. *)

Definition stub_URL_parse (url : string) : option URL :=
  if decide (url = "https://github.com/acme/widget")
  then Some {| host := "github.com"; pathname := "/acme/widget" |}
  else if decide (url = "https://github.com/acme/gadget")
  then Some {| host := "github.com"; pathname := "/acme/gadget" |}
  else if decide (url = "https://github.com/acme")
  then Some {| host := "github.com"; pathname := "/acme" |}
  else if decide (url = "https://gitlab.com/acme/widget")
  then Some {| host := "gitlab.com"; pathname := "/acme/widget" |}
  else None.

Definition stub_isSPDXValid (l : string) : bool :=
  bool_decide (l ∈ ["MIT"; "Apache-2.0"; "GPL-3.0"]).

Definition stub_spdx_satisfies (l expression : string) : option bool :=
  if stub_isSPDXValid l && stub_isSPDXValid expression
  then Some (bool_decide (l = expression))
  else None.

Definition stub_getForRepo (n : nat) (owner repo : string)
    : option (option RepoLicense) :=
  if decide (owner = "acme" ∧ repo = "widget")
  then Some (Some {| spdx_id := Some "Apache-2.0" |})
  else if decide (owner = "acme" ∧ repo = "gadget")
  then Some (Some {| spdx_id := Some "NOASSERTION" |})
  else None.

Definition stub : Externals :=
  {| URL_parse := stub_URL_parse;
     isSPDXValid := stub_isSPDXValid;
     spdx_satisfies := stub_spdx_satisfies;
     licenses_getForRepo := stub_getForRepo |}.

(** A license expression as the dependency graph delivers it when it is
    cut at 255 characters. *)
Definition cut_license : string :=
  String.substring 0 255
    (String.concat "" (replicate 19 "Apache-2.0 OR ")).

Definition new_world : World := {| requests := []; checks := [] |}.

Definition change_of (n : string) (t : ChangeType)
    (l url : option string) : Change :=
  {| name := n; version := "1.0.0"; manifest := "package.json";
     change_type := t; license := l; source_repository_url := url |}.

(** Sample changes and policies. *)

Definition cut_change : Change :=
  change_of "widget" added (Some cut_license)
    (Some "https://github.com/acme/widget").

Definition gpl_change : Change := change_of "gpl-lib" added (Some "GPL-3.0") None.

Definition mit_change : Change := change_of "mit-lib" added (Some "MIT") None.

Definition mit_again : Change := change_of "mit-tool" added (Some "MIT") None.

Definition noassertion_change : Change :=
  change_of "na-lib" added (Some "NOASSERTION") None.

Definition gadget_change : Change :=
  change_of "gadget" added None (Some "https://github.com/acme/gadget").

Definition widget_change : Change :=
  change_of "widget" added None (Some "https://github.com/acme/widget").

Definition gitlab_change : Change :=
  change_of "widget" added None (Some "https://gitlab.com/acme/widget").

Definition removed_change : Change :=
  change_of "old-lib" removed (Some "GPL-3.0") None.

Definition bogus_change : Change :=
  change_of "bogus" added (Some "not-a-license") None.

Definition bogus_again : Change :=
  change_of "bogus-too" added (Some "not-a-license") None.

Definition allow_MIT : Policy := {| allow := Some ["MIT"]; deny := None |}.

Definition deny_GPL : Policy := {| allow := None; deny := Some ["GPL-3.0"] |}.

(** ** Reporting the result ([src/main.ts])

    The reporting functions only call [@actions/core]; each is modelled
    by the list of calls it makes, in order.  The escape sequences of
    [ansi-styles] are an interface: [bold_open] is [styles.bold.open],
    [red_open] is [styles.color.red.open], and so on. *)

Inductive CoreCall : Type :=
| info (message : string)
| warning (message : string)
| setFailed (message : string).

Class AnsiStyles : Type := {
  bold_open : string;
  bold_close : string;
  red_open : string;
  red_close : string
}.

Section Reporting.
Context `{!AnsiStyles}.

(** [`${change.license}`]: a [null] license prints as "null". *)
Definition license_text (change : Change) : string :=
  match license change with
  | Some l => l
  | None => "null"
  end.

Definition printLicensesError (changes : list Change) : list CoreCall :=
  (λ change,
     info (bold_open +:+ manifest change +:+ " » " +:+ name change +:+ "@"
           +:+ version change +:+ bold_close +:+ " – License: "
           +:+ red_open +:+ license_text change +:+ red_close))
  <$> changes.

Definition printNullLicenses (changes : list Change) : list CoreCall :=
  if decide (length changes = 0) then []
  else
    info (String "010"
            "We could not detect a license for the following dependencies:")
    :: ((λ change,
           info (bold_open +:+ manifest change +:+ " » " +:+ name change
                 +:+ "@" +:+ version change +:+ bold_close))
        <$> changes).

(** The function [printLicensesBlock] hands to [core.group]. *)
Definition printLicensesBlock_callback
    (invalidLicenseChanges : InvalidLicenseChanges) : list CoreCall :=
  (if decide (0 < length (forbidden invalidLicenseChanges)) then
     [info (String "010"
              "The following dependencies have incompatible licenses:")]
     ++ printLicensesError (forbidden invalidLicenseChanges)
     ++ [setFailed "Dependency review detected incompatible licenses."]
   else [])
  ++ (if decide (0 < length (unresolved invalidLicenseChanges)) then
        [warning
           (String "010"
              "The validity of the licenses of the dependencies below could not be determined. Ensure that they are valid SPDX licenses:")]
        ++ printLicensesError (unresolved invalidLicenseChanges)
        ++ [setFailed
              "Dependency review could not detect the validity of all licenses."]
      else [])
  ++ printNullLicenses (unlicensed invalidLicenseChanges).

End Reporting.

(** The escape sequences of a terminal, for sample runs. *)
Definition stub_styles : AnsiStyles :=
  {| bold_open := String "027" "[1m";
     bold_close := String "027" "[22m";
     red_open := String "027" "[31m";
     red_close := String "027" "[39m" |}.

(** More sample policies. *)

Definition no_policy : Policy := {| allow := None; deny := None |}.

Definition allow_nothing : Policy :=
  {| allow := Some []; deny := Some ["MIT"] |}.

Definition allow_MIT_late : Policy :=
  {| allow := Some ["GPL-3.0"; "MIT"; "not a valid expression!!"];
     deny := None |}.

Definition allow_malformed_first : Policy :=
  {| allow := Some ["not a valid expression!!"; "MIT"]; deny := None |}.

(** ** Proofs *)

Section Proofs.
Context `{!Externals}.

Ltac run := unfold bind, ret, try_catch; simpl.

Lemma log_checks_nil w : log_checks [] w = w.
Proof. destruct w. unfold log_checks. simpl. by rewrite app_nil_r. Qed.

Lemma log_requests_nil w : log_requests [] w = w.
Proof. destruct w. unfold log_requests. simpl. by rewrite app_nil_r. Qed.

Lemma log_checks_app cs1 cs2 w :
  log_checks cs2 (log_checks cs1 w) = log_checks (cs1 ++ cs2) w.
Proof. unfold log_checks. simpl. by rewrite app_assoc. Qed.

Lemma log_requests_app rs1 rs2 w :
  log_requests rs2 (log_requests rs1 w) = log_requests (rs1 ++ rs2) w.
Proof. unfold log_requests. simpl. by rewrite app_assoc. Qed.

(** *** The evaluation loop *)

Lemma Array_find_run l exprs w :
  Array_find (spdxSatisfies l) exprs w
  = (find_outcome l exprs, log_checks (find_checks l exprs) w).
Proof.
  revert w. induction exprs as [|e rest IH]; intros w; simpl.
  - run. by rewrite log_checks_nil.
  - unfold bind, spdxSatisfies at 1.
    change {| requests := requests w; checks := checks w ++ [(l, e)] |}
      with (log_checks [(l, e)] w).
    destruct (spdx_satisfies l e) as [[|]|]; [done| |done].
    by rewrite IH, log_checks_app.
Qed.

Lemma evaluate_run policy l st w :
  evaluate policy l st w
  = (match verdict policy l with
     | Returned (Some b) => Returned (validityCache_set l b st)
     | Returned None => Returned st
     | Thrown => Thrown
     end, log_checks (verdict_checks policy l) w).
Proof.
  unfold evaluate, verdict, verdict_checks.
  destruct (allow policy) as [allowed|]; [|destruct (deny policy) as [denied|]].
  - unfold bind. rewrite Array_find_run.
    by destruct (find_outcome l allowed).
  - unfold bind. rewrite Array_find_run.
    by destruct (find_outcome l denied).
  - run. by rewrite log_checks_nil.
Qed.

Lemma body_run policy st change w :
  getInvalidLicenseChanges_body policy st change w
  = (Returned (body_next policy st change),
     log_checks (body_checks policy st change) w).
Proof.
  unfold getInvalidLicenseChanges_body, body_next, body_checks.
  destruct (license change) as [l|]; [|run; by rewrite log_checks_nil].
  unfold bind. destruct (decide (l = "NOASSERTION")) as [->|Hl].
  { run. rewrite log_checks_nil. by case_decide. }
  destruct (decide (validityCache st !! l = None)) as [Hc|Hc].
  - unfold try_catch. rewrite evaluate_run.
    destruct (verdict policy l) as [[b|]|]; run; by case_decide.
  - run. rewrite log_checks_nil. by case_decide.
Qed.

Lemma loop_run policy changes st w :
  for_of (getInvalidLicenseChanges_body policy) st changes w
  = (Returned (foldl (body_next policy) st changes),
     log_checks (loop_checks policy st changes) w).
Proof.
  revert st w. induction changes as [|change rest IH]; intros st w; simpl.
  - run. by rewrite log_checks_nil.
  - unfold bind. rewrite body_run, IH, log_checks_app. done.
Qed.

Lemma body_next_cache policy st change :
  validityCache (body_next policy st change)
  = match license change with
    | None => validityCache st
    | Some l =>
        if decide (l = "NOASSERTION") then validityCache st
        else if decide (validityCache st !! l = None) then
          match verdict policy l with
          | Returned (Some b) => <[l := b]> (validityCache st)
          | _ => validityCache st
          end
        else validityCache st
    end.
Proof.
  unfold body_next. destruct (license change) as [l|]; [|done].
  destruct (decide (l = "NOASSERTION")); [by case_decide|].
  destruct (decide (validityCache st !! l = None)); [|by case_decide].
  destruct (verdict policy l) as [[b|]|]; by case_decide.
Qed.

Lemma body_next_sound policy st change :
  cache_sound policy (validityCache st) →
  cache_sound policy (validityCache (body_next policy st change)).
Proof.
  intros [Hna Hv]. rewrite body_next_cache.
  destruct (license change) as [l|]; [|done].
  destruct (decide (l = "NOASSERTION")); [done|].
  destruct (decide (validityCache st !! l = None)); [|done].
  destruct (verdict policy l) as [[b|]|] eqn:Hl; try done.
  split.
  - by rewrite lookup_insert_ne.
  - intros l' b'. rewrite lookup_insert. case_decide; [|by auto].
    intros [= <-]. by subst.
Qed.

Lemma body_next_buckets policy st change :
  cache_sound policy (validityCache st) →
  let r := invalidLicenseChanges st in
  let r' := invalidLicenseChanges (body_next policy st change) in
  unlicensed r'
  = unlicensed r ++ filter (λ c, signal policy c = NoAssertion) [change]
  ∧ unresolved r'
    = unresolved r ++ filter (λ c, signal policy c = Unresolved) [change]
  ∧ forbidden r'
    = forbidden r ++ filter (λ c, signal policy c = Forbidden) [change].
Proof.
  intros [Hna Hv] r r'. subst r r'.
  rewrite !filter_cons, !filter_nil.
  unfold body_next, signal. destruct (license change) as [l|];
    [|simpl; by rewrite !app_nil_r].
  destruct (decide (l = "NOASSERTION")) as [->|Hl].
  { simpl. rewrite Hna. case_decide; [done|]. simpl. by rewrite !app_nil_r. }
  destruct (decide (validityCache st !! l = None)) as [Hc|Hc].
  - destruct (verdict policy l) as [[[|]|]|]; simpl.
    + rewrite lookup_insert_eq. case_decide; [done|].
      simpl. by rewrite !app_nil_r.
    + rewrite lookup_insert_eq. case_decide; [|done].
      simpl. by rewrite !app_nil_r.
    + rewrite Hc. case_decide; [done|]. by rewrite !app_nil_r.
    + rewrite Hc. case_decide; [done|]. simpl. by rewrite !app_nil_r.
  - destruct (validityCache st !! l) as [b|] eqn:Hb; [|done].
    rewrite (Hv l b Hb). destruct b; case_decide; try done;
      simpl; by rewrite !app_nil_r.
Qed.

Lemma loop_buckets policy changes st :
  cache_sound policy (validityCache st) →
  let r := invalidLicenseChanges st in
  let st' := foldl (body_next policy) st changes in
  let r' := invalidLicenseChanges st' in
  cache_sound policy (validityCache st')
  ∧ unlicensed r'
    = unlicensed r ++ filter (λ c, signal policy c = NoAssertion) changes
  ∧ unresolved r'
    = unresolved r ++ filter (λ c, signal policy c = Unresolved) changes
  ∧ forbidden r'
    = forbidden r ++ filter (λ c, signal policy c = Forbidden) changes.
Proof.
  revert st. induction changes as [|change rest IH]; intros st Hs; simpl.
  { rewrite !filter_nil, !app_nil_r. done. }
  destruct (IH _ (body_next_sound policy st change Hs)) as (Hs' & Hu & Hr & Hf).
  destruct (body_next_buckets policy st change Hs) as (Hu1 & Hr1 & Hf1).
  simpl in *. rewrite Hu, Hr, Hf, Hu1, Hr1, Hf1.
  rewrite <- !app_assoc, <- !filter_app. done.
Qed.

Lemma cache_sound_empty policy : cache_sound policy ∅.
Proof. split; [done|]. intros l b. by rewrite lookup_empty. Qed.

(** *** The checks of a run, license by license *)

Lemma find_checks_same l exprs :
  checks_for l (find_checks l exprs) = find_checks l exprs.
Proof.
  unfold checks_for. induction exprs as [|e rest IH]; simpl; [done|].
  rewrite filter_cons_True by done. f_equal.
  by destruct (spdx_satisfies l e) as [[|]|].
Qed.

Lemma find_checks_other l l' exprs :
  l' ≠ l → checks_for l (find_checks l' exprs) = [].
Proof.
  intros Hne. unfold checks_for. induction exprs as [|e rest IH]; simpl; [done|].
  rewrite filter_cons_False by done.
  by destruct (spdx_satisfies l' e) as [[|]|].
Qed.

Lemma verdict_checks_same policy l :
  checks_for l (verdict_checks policy l) = verdict_checks policy l.
Proof.
  unfold verdict_checks.
  destruct (allow policy); [apply find_checks_same|].
  destruct (deny policy); [apply find_checks_same|done].
Qed.

Lemma verdict_checks_other policy l l' :
  l' ≠ l → checks_for l (verdict_checks policy l') = [].
Proof.
  intros Hne. unfold verdict_checks.
  destruct (allow policy); [by apply find_checks_other|].
  destruct (deny policy); [by apply find_checks_other|done].
Qed.

Lemma verdict_None_checks policy l :
  verdict policy l = Returned None → verdict_checks policy l = [].
Proof.
  unfold verdict, verdict_checks.
  destruct (allow policy) as [allowed|].
  { by destruct (find_outcome l allowed). }
  destruct (deny policy) as [denied|]; [|done].
  by destruct (find_outcome l denied).
Qed.

Lemma concat_replicate_nil {A} n : concat (replicate n (@nil A)) = [].
Proof. induction n; simpl; done. Qed.

Lemma loop_checks_NOASSERTION policy changes st :
  checks_for "NOASSERTION" (loop_checks policy st changes) = [].
Proof.
  revert st. induction changes as [|c rest IH]; intros st; simpl; [done|].
  unfold checks_for in *. rewrite filter_app, IH, app_nil_r.
  unfold body_checks. destruct (license c) as [l0|]; [|done].
  destruct (decide (l0 = "NOASSERTION")); [done|].
  case_decide; [|done]. by apply verdict_checks_other.
Qed.

Lemma loop_checks_for policy l changes st :
  l ≠ "NOASSERTION" →
  checks_for l (loop_checks policy st changes)
  = match validityCache st !! l with
    | Some _ => []
    | None =>
        let n := length (carriers l changes) in
        match verdict policy l with
        | Thrown => concat (replicate n (verdict_checks policy l))
        | _ => concat (replicate (Nat.min 1 n) (verdict_checks policy l))
        end
    end.
Proof.
  intros Hl. revert st.
  induction changes as [|c rest IH]; intros st; simpl.
  { destruct (validityCache st !! l); [done|].
    by destruct (verdict policy l) as [[?|]|]. }
  unfold checks_for. rewrite filter_app.
  fold (checks_for l (body_checks policy st c)).
  fold (checks_for l (loop_checks policy (body_next policy st c) rest)).
  rewrite IH, body_next_cache. unfold body_checks, carriers.
  rewrite filter_cons. fold (carriers l rest).
  destruct (license c) as [l0|] eqn:Hc; [|by rewrite decide_False].
  destruct (decide (l0 = "NOASSERTION")) as [->|Hl0].
  { by rewrite decide_False by congruence. }
  destruct (decide (validityCache st !! l0 = None)) as [Hmiss|Hhit].
  - destruct (decide (l0 = l)) as [->|Hne].
    + rewrite decide_True by done. rewrite verdict_checks_same, Hmiss.
      destruct (verdict policy l) as [[b|]|] eqn:Hv; simpl.
      * rewrite lookup_insert_eq. done.
      * rewrite Hmiss, (verdict_None_checks _ _ Hv).
        by rewrite concat_replicate_nil.
      * by rewrite Hmiss.
    + rewrite decide_False by congruence.
      rewrite verdict_checks_other by done. simpl.
      destruct (verdict policy l0) as [[b|]|]; try done.
      by rewrite lookup_insert_ne.
  - destruct (decide (l0 = l)) as [->|Hne].
    + rewrite decide_True by done.
      by destruct (validityCache st !! l).
    + by rewrite decide_False by congruence.
Qed.

(** *** Remote resolution and grouping *)

Lemma parseGitHubURL_run url w :
  parseGitHubURL url w = (Returned (parse_result url), w).
Proof.
  unfold parseGitHubURL, parse_result, try_catch, bind, new_URL.
  destruct (URL_parse url) as [parsed|]; [|done].
  repeat case_decide; done.
Qed.

Lemma fetchGHLicense_run owner repo w :
  fetchGHLicense owner repo w
  = (Returned (fetch_result (length (requests w)) owner repo),
     log_requests [(owner, repo)] w).
Proof.
  unfold fetchGHLicense, fetch_result, try_catch, bind, getForRepo.
  by destruct (licenses_getForRepo _ owner repo) as [[l|]|].
Qed.

Lemma setGHLicenses_callback_run change w :
  setGHLicenses_callback change w
  = match lookup_of change with
    | None => (Returned change, w)
    | Some gh =>
        (Returned (with_license change
                     (fetch_result (length (requests w)) (owner gh) (repo gh))),
         log_requests [(owner gh, repo gh)] w)
    end.
Proof.
  unfold setGHLicenses_callback, lookup_of.
  destruct (license change); [done|].
  destruct (source_repository_url change) as [url|]; [|done].
  unfold bind. rewrite parseGitHubURL_run.
  destruct (parse_result url) as [gh|]; [|done].
  by rewrite fetchGHLicense_run.
Qed.

Lemma setGHLicenses_run changes w :
  setGHLicenses changes w
  = (Returned (resolve_all (length (requests w)) changes),
     log_requests (lookups changes) w).
Proof.
  unfold setGHLicenses, lookups. revert w.
  induction changes as [|c rest IH]; intros w; simpl.
  { unfold ret. by rewrite log_requests_nil. }
  unfold bind at 1. rewrite setGHLicenses_callback_run.
  destruct (lookup_of c) as [gh|]; unfold bind; rewrite IH; unfold ret.
  - rewrite log_requests_app. simpl.
    rewrite length_app. simpl. by rewrite Nat.add_1_r.
  - done.
Qed.

Lemma groupChanges_first_loop changes st :
  foldl groupChanges_body st changes
  = {| result :=
         Grouped.mk
           (Grouped.licensed (result st) ++ filter directly_licensed changes)
           (Grouped.unlicensed (result st)
            ++ filter directly_unlicensed changes);
       ghChanges := ghChanges st ++ filter needs_lookup changes |}.
Proof.
  revert st. induction changes as [|c rest IH]; intros st; simpl.
  { rewrite !filter_nil, !app_nil_r. by destruct st as [[??] ?]. }
  rewrite IH. clear IH. rewrite !filter_cons. unfold groupChanges_body.
  destruct (decide (change_type c = removed)) as [Ht|Ht].
  { rewrite (decide_False (P := directly_licensed c)) by (intros []; done).
    rewrite (decide_False (P := directly_unlicensed c)) by (intros []; done).
    rewrite (decide_False (P := needs_lookup c)) by (intros []; done).
    done. }
  destruct (license c) as [l|] eqn:Hc.
  - rewrite (decide_False (P := directly_unlicensed c))
      by (intros (_ & Hn & _); congruence).
    destruct (truncatedDGLicense l) eqn:Htr; simpl.
    + destruct (decide (source_repository_url c ≠ None)) as [Hu|Hu].
      * rewrite bool_decide_eq_true_2 by done.
        rewrite (decide_True (P := needs_lookup c))
          by (unfold needs_lookup; by rewrite Hc).
        rewrite (decide_False (P := directly_licensed c))
          by (intros (_ & l' & Hl' & Hn); apply Hn; split; congruence).
        simpl. by rewrite <- !app_assoc.
      * rewrite bool_decide_eq_false_2 by done.
        rewrite (decide_False (P := needs_lookup c)) by (intros (_ & ? & _); done).
        rewrite (decide_True (P := directly_licensed c))
          by (split; [done|]; exists l; split; [done|]; tauto).
        simpl. by rewrite <- !app_assoc.
    + rewrite (decide_False (P := needs_lookup c))
        by (unfold needs_lookup; rewrite Hc; intros (_ & _ & ?); congruence).
      rewrite (decide_True (P := directly_licensed c))
        by (split; [done|]; exists l; split; [done|];
            intros [? _]; congruence).
      simpl. by rewrite <- !app_assoc.
  - rewrite (decide_False (P := directly_licensed c))
      by (intros (_ & l' & Hl' & _); congruence).
    destruct (decide (source_repository_url c ≠ None)) as [Hu|Hu]; simpl.
    + rewrite (decide_True (P := needs_lookup c))
        by (unfold needs_lookup; by rewrite Hc).
      rewrite (decide_False (P := directly_unlicensed c))
        by (intros (_ & _ & ?); done).
      by rewrite <- !app_assoc.
    + rewrite (decide_False (P := needs_lookup c)) by (intros (_ & ? & _); done).
      rewrite (decide_True (P := directly_unlicensed c))
        by (split_and!; [done..|by apply dec_stable]).
      by rewrite <- !app_assoc.
Qed.

Lemma groupChanges_merge_loop changes r :
  foldl groupChanges_merge r changes
  = Grouped.mk
      (Grouped.licensed r ++ filter (λ c, license c ≠ None) changes)
      (Grouped.unlicensed r ++ filter (λ c, license c = None) changes).
Proof.
  revert r. induction changes as [|c rest IH]; intros r; simpl.
  { rewrite !filter_nil, !app_nil_r. by destruct r. }
  rewrite IH. clear IH. rewrite !filter_cons. unfold groupChanges_merge.
  destruct (license c) as [l|]; simpl;
    repeat case_decide; try done; by rewrite <- !app_assoc.
Qed.

Lemma groupChanges_run changes w :
  groupChanges changes w
  = (Returned (group_result (length (requests w)) changes),
     log_requests (lookups (filter needs_lookup changes)) w).
Proof.
  unfold groupChanges, group_result. rewrite groupChanges_first_loop. simpl.
  case_decide as Hlen.
  - unfold bind. rewrite setGHLicenses_run. unfold ret.
    by rewrite groupChanges_merge_loop.
  - destruct (filter needs_lookup changes); [|simpl in Hlen; lia].
    unfold ret. simpl. by rewrite !app_nil_r, log_requests_nil.
Qed.

Lemma getInvalidLicenseChanges_locals_run changes policy w :
  let g := group_result (length (requests w)) changes in
  getInvalidLicenseChanges_locals changes policy w
  = (Returned (final_locals policy g),
     log_checks (loop_checks policy (initial_locals g) (Grouped.licensed g))
       (log_requests (lookups (filter needs_lookup changes)) w)).
Proof.
  intros g. unfold getInvalidLicenseChanges_locals, bind.
  rewrite groupChanges_run. apply loop_run.
Qed.

Lemma getInvalidLicenseChanges_run changes policy w :
  let g := group_result (length (requests w)) changes in
  getInvalidLicenseChanges changes policy w
  = (Returned (invalidLicenseChanges (final_locals policy g)),
     log_checks (loop_checks policy (initial_locals g) (Grouped.licensed g))
       (log_requests (lookups (filter needs_lookup changes)) w)).
Proof.
  intros g. unfold getInvalidLicenseChanges, bind.
  by rewrite getInvalidLicenseChanges_locals_run.
Qed.

(** *** Members of the groups and of the buckets *)

Lemma final_buckets policy g :
  let st := final_locals policy g in
  let r := invalidLicenseChanges st in
  cache_sound policy (validityCache st)
  ∧ unlicensed r
    = Grouped.unlicensed g
      ++ filter (λ c, signal policy c = NoAssertion) (Grouped.licensed g)
  ∧ unresolved r
    = filter (λ c, signal policy c = Unresolved) (Grouped.licensed g)
  ∧ forbidden r
    = filter (λ c, signal policy c = Forbidden) (Grouped.licensed g).
Proof.
  apply (loop_buckets policy (Grouped.licensed g) (initial_locals g)).
  apply cache_sound_empty.
Qed.

Lemma resolve_all_elem n changes c' :
  c' ∈ resolve_all n changes →
  ∃ c, c ∈ changes
       ∧ (c' = c
          ∨ ∃ gh m, lookup_of c = Some gh
                    ∧ c' = with_license c
                             (fetch_result m (owner gh) (repo gh))).
Proof.
  revert n. induction changes as [|c rest IH]; intros n; simpl.
  { by intros ?%elem_of_nil. }
  destruct (lookup_of c) as [gh|] eqn:Hgh; rewrite elem_of_cons;
    (intros [->|Hin];
     [|destruct (IH _ Hin) as (c0 & Hc0 & Hr); exists c0;
       split; [by right|done]]);
    exists c; (split; [by left|]); eauto.
Qed.

Lemma resolve_all_unchanged n changes c :
  c ∈ changes → lookup_of c = None → c ∈ resolve_all n changes.
Proof.
  intros Hin Hno. revert n.
  induction changes as [|c0 rest IH]; intros n; [by apply elem_of_nil in Hin|].
  apply elem_of_cons in Hin as [<-|Hin]; simpl.
  - rewrite Hno. by left.
  - destruct (lookup_of c0); right; by apply IH.
Qed.

Lemma group_licensed_elem n changes c :
  c ∈ Grouped.licensed (group_result n changes) →
  change_type c ≠ removed ∧ license c ≠ None.
Proof.
  unfold group_result. simpl. rewrite elem_of_app, !list_elem_of_filter.
  intros [[[Ht (l & Hl & _)] _]|[Hl Hin]].
  { split; [done|congruence]. }
  split; [|done].
  apply resolve_all_elem in Hin as (c0 & Hc0 & Hr).
  apply list_elem_of_filter in Hc0 as [[Ht _] _].
  by destruct Hr as [->|(gh & m & _ & ->)].
Qed.

Lemma group_unlicensed_elem n changes c :
  c ∈ Grouped.unlicensed (group_result n changes) →
  change_type c ≠ removed ∧ license c = None.
Proof.
  unfold group_result. simpl. rewrite elem_of_app, !list_elem_of_filter.
  intros [[(Ht & Hl & _) _]|[Hl Hin]]; [done|].
  split; [|done].
  apply resolve_all_elem in Hin as (c0 & Hc0 & Hr).
  apply list_elem_of_filter in Hc0 as [[Ht _] _].
  by destruct Hr as [->|(gh & m & _ & ->)].
Qed.

Lemma group_keeps_licensed n changes c l :
  c ∈ changes → change_type c ≠ removed → license c = Some l →
  c ∈ Grouped.licensed (group_result n changes).
Proof.
  intros Hin Ht Hl. unfold group_result. simpl. apply elem_of_app.
  destruct (decide (truncatedDGLicense l = true
                    ∧ source_repository_url c ≠ None)) as [[Htr Hu]|Hn].
  - right. apply list_elem_of_filter. split; [congruence|].
    apply resolve_all_unchanged.
    + apply list_elem_of_filter. split; [|done].
      unfold needs_lookup. by rewrite Hl.
    + unfold lookup_of. by rewrite Hl.
  - left. apply list_elem_of_filter. split; [|done].
    split; [done|]. by exists l.
Qed.

Lemma signal_Skipped policy c : signal policy c = Skipped ↔ license c = None.
Proof.
  unfold signal. destruct (license c) as [l|]; [|done].
  split; [|done]. case_decide; [done|].
  by destruct (verdict policy l) as [[[|]|]|].
Qed.

Lemma signal_NoAssertion policy c :
  signal policy c = NoAssertion ↔ license c = Some "NOASSERTION".
Proof.
  unfold signal. destruct (license c) as [l|]; [|done].
  case_decide as Hl; [by subst|].
  split; [|congruence]. by destruct (verdict policy l) as [[[|]|]|].
Qed.

Lemma signal_Unresolved policy c :
  signal policy c = Unresolved
  ↔ ∃ l, license c = Some l ∧ l ≠ "NOASSERTION" ∧ verdict policy l = Thrown.
Proof.
  unfold signal. destruct (license c) as [l|];
    [|split; [done|intros (l' & Hl' & _); done]].
  case_decide as Hl;
    [split; [done|intros (l' & Hl' & Hn & _); congruence]|].
  split.
  - intros Hs. exists l. by destruct (verdict policy l) as [[[|]|]|].
  - intros (l' & Hl' & _ & Hv). injection Hl' as <-. by rewrite Hv.
Qed.

Lemma signal_Forbidden policy c :
  signal policy c = Forbidden
  ↔ ∃ l, license c = Some l ∧ l ≠ "NOASSERTION"
         ∧ verdict policy l = Returned (Some false).
Proof.
  unfold signal. destruct (license c) as [l|];
    [|split; [done|intros (l' & Hl' & _); done]].
  case_decide as Hl;
    [split; [done|intros (l' & Hl' & Hn & _); congruence]|].
  split.
  - intros Hs. exists l. by destruct (verdict policy l) as [[[|]|]|].
  - intros (l' & Hl' & _ & Hv). injection Hl' as <-. by rewrite Hv.
Qed.

Lemma in_forbidden policy g c :
  c ∈ forbidden (invalidLicenseChanges (final_locals policy g))
  ↔ c ∈ Grouped.licensed g ∧ signal policy c = Forbidden.
Proof.
  destruct (final_buckets policy g) as (_ & _ & _ & ->).
  rewrite list_elem_of_filter. tauto.
Qed.

Lemma in_unresolved policy g c :
  c ∈ unresolved (invalidLicenseChanges (final_locals policy g))
  ↔ c ∈ Grouped.licensed g ∧ signal policy c = Unresolved.
Proof.
  destruct (final_buckets policy g) as (_ & _ & -> & _).
  rewrite list_elem_of_filter. tauto.
Qed.

Lemma in_unlicensed policy g c :
  c ∈ unlicensed (invalidLicenseChanges (final_locals policy g))
  ↔ c ∈ Grouped.unlicensed g
    ∨ (c ∈ Grouped.licensed g ∧ signal policy c = NoAssertion).
Proof.
  destruct (final_buckets policy g) as (_ & -> & _ & _).
  rewrite elem_of_app, list_elem_of_filter. tauto.
Qed.

Lemma resolve_all_Forall2 n changes :
  Forall2
    (λ c c', match lookup_of c with
             | None => c' = c
             | Some gh =>
                 ∃ m, c' = with_license c
                             (fetch_result m (owner gh) (repo gh))
             end)
    changes (resolve_all n changes).
Proof.
  revert n. induction changes as [|c rest IH]; intros n; simpl.
  { constructor. }
  destruct (lookup_of c) as [gh|] eqn:Hgh; constructor;
    rewrite ?Hgh; eauto.
Qed.

(** *** One pass of [find] *)

Lemma find_outcome_None l exprs found :
  find_outcome l exprs = Returned found →
  found = None ↔ ∀ e, e ∈ exprs → spdx_satisfies l e ≠ Some true.
Proof.
  induction exprs as [|e0 rest IH]; simpl.
  { intros [= <-]. split; [|done]. by intros _ e ?%elem_of_nil. }
  destruct (spdx_satisfies l e0) as [[|]|] eqn:He0; [| |done].
  - intros [= <-]. split; [done|]. intros Hall.
    destruct (Hall e0); [by left|done].
  - intros Hf. rewrite (IH Hf). split.
    + intros Hall e [->|Hin]%elem_of_cons; [congruence|by apply Hall].
    + intros Hall e Hin. apply Hall. by right.
Qed.

Lemma find_outcome_Some l exprs e :
  find_outcome l exprs = Returned (Some e) →
  e ∈ exprs ∧ spdx_satisfies l e = Some true.
Proof.
  induction exprs as [|e0 rest IH]; simpl; [done|].
  destruct (spdx_satisfies l e0) as [[|]|] eqn:He0; [| |done].
  - intros [= <-]. split; [by left|done].
  - intros Hf. destruct (IH Hf). split; [by right|done].
Qed.

Lemma find_outcome_total l exprs :
  (∀ e, e ∈ exprs → spdx_satisfies l e ≠ None) →
  find_outcome l exprs ≠ Thrown.
Proof.
  induction exprs as [|e0 rest IH]; simpl; [done|]. intros Hall.
  destruct (spdx_satisfies l e0) as [[|]|] eqn:He0; [done| |].
  - apply IH. intros e Hin. apply Hall. by right.
  - destruct (Hall e0); [by left|done].
Qed.

Lemma find_checks_thrown l exprs e :
  (l, e) ∈ find_checks l exprs → spdx_satisfies l e = None →
  find_outcome l exprs = Thrown.
Proof.
  intros Hin He. induction exprs as [|e0 rest IH]; simpl in *.
  { by apply elem_of_nil in Hin. }
  apply elem_of_cons in Hin as [[= <-]|Hin]; [by rewrite He|].
  destruct (spdx_satisfies l e0) as [[|]|]; [|by apply IH|done].
  by apply elem_of_nil in Hin.
Qed.

Lemma verdict_checks_thrown policy l e :
  (l, e) ∈ verdict_checks policy l → spdx_satisfies l e = None →
  verdict policy l = Thrown.
Proof.
  unfold verdict_checks, verdict. intros Hin He.
  destruct (allow policy) as [allowed|].
  { by rewrite (find_checks_thrown _ _ _ Hin He). }
  destruct (deny policy) as [denied|]; [|by apply elem_of_nil in Hin].
  by rewrite (find_checks_thrown _ _ _ Hin He).
Qed.

Lemma elem_of_concat_replicate {A} (x : A) n l :
  x ∈ concat (replicate n l) ↔ 0 < n ∧ x ∈ l.
Proof.
  induction n as [|n IH]; simpl.
  { rewrite elem_of_nil. split; [done|]. intros [? _]. lia. }
  rewrite elem_of_app, IH. split; [|tauto].
  intros [?|[_ ?]]; split; (lia || done).
Qed.

Lemma carriers_length l changes c :
  c ∈ changes → license c = Some l → 0 < length (carriers l changes).
Proof.
  intros Hin Hl.
  assert (c ∈ carriers l changes) as Hc
    by (by apply list_elem_of_filter).
  destruct (carriers l changes); [by apply elem_of_nil in Hc|simpl; lia].
Qed.

(** The checks a run makes for a license, when it starts with an empty
    cache. *)
Lemma run_checks_for policy g l :
  l ≠ "NOASSERTION" →
  checks_for l (loop_checks policy (initial_locals g) (Grouped.licensed g))
  = let n := length (carriers l (Grouped.licensed g)) in
    match verdict policy l with
    | Thrown => concat (replicate n (verdict_checks policy l))
    | _ => concat (replicate (Nat.min 1 n) (verdict_checks policy l))
    end.
Proof. intros Hl. by rewrite loop_checks_for. Qed.

Lemma run_checks_elem policy g l e :
  (l, e) ∈ loop_checks policy (initial_locals g) (Grouped.licensed g) →
  l ≠ "NOASSERTION" ∧ (l, e) ∈ verdict_checks policy l.
Proof.
  intros Hin.
  assert ((l, e) ∈ checks_for l
            (loop_checks policy (initial_locals g) (Grouped.licensed g)))
    as Hf by (by apply list_elem_of_filter).
  destruct (decide (l = "NOASSERTION")) as [->|Hl].
  { rewrite loop_checks_NOASSERTION in Hf. by apply elem_of_nil in Hf. }
  split; [done|]. rewrite run_checks_for in Hf by done. simpl in Hf.
  destruct (verdict policy l) as [[?|]|];
    by apply elem_of_concat_replicate in Hf as [_ ?].
Qed.

Lemma run_checks_carrier policy g c l check :
  c ∈ Grouped.licensed g → license c = Some l → l ≠ "NOASSERTION" →
  check ∈ verdict_checks policy l →
  check ∈ loop_checks policy (initial_locals g) (Grouped.licensed g).
Proof.
  intros Hin Hc Hl Hcheck.
  pose proof (carriers_length _ _ _ Hin Hc) as Hn.
  assert (check ∈ checks_for l
            (loop_checks policy (initial_locals g) (Grouped.licensed g)))
    as Hf; [|by apply list_elem_of_filter in Hf as [_ ?]].
  rewrite run_checks_for by done. cbv zeta.
  destruct (verdict policy l) as [[?|]|];
    apply elem_of_concat_replicate; (split; [lia|done]).
Qed.

(** *** The batch, position by position *)

Lemma resolve_all_lookup n changes i c :
  changes !! i = Some c →
  resolve_all n changes !! i
  = Some match lookup_of c with
         | None => c
         | Some gh =>
             with_license c
               (fetch_result (n + length (lookups (take i changes)))
                  (owner gh) (repo gh))
         end.
Proof.
  revert n i. induction changes as [|c0 rest IH]; intros n i; [done|].
  destruct i as [|i]; simpl.
  - intros [= ->]. destruct (lookup_of c) as [gh|]; simpl; [|done].
    by rewrite Nat.add_0_r.
  - intros Hi. unfold lookups. simpl.
    destruct (lookup_of c0) as [gh0|]; simpl; rewrite (IH _ _ Hi); [|done].
    destruct (lookup_of c) as [gh|]; [|done].
    do 3 f_equal. symmetry. apply Nat.add_succ_r.
Qed.

(** *** What the cache holds after the loop *)

Lemma body_next_cache_mono policy st change l b :
  validityCache st !! l = Some b →
  validityCache (body_next policy st change) !! l = Some b.
Proof.
  intros Hb. rewrite body_next_cache.
  destruct (license change) as [l0|]; [|done].
  destruct (decide (l0 = "NOASSERTION")); [done|].
  destruct (decide (validityCache st !! l0 = None)) as [Hmiss|]; [|done].
  destruct (verdict policy l0) as [[b0|]|]; try done.
  rewrite lookup_insert_ne; [done|]. intros ->. congruence.
Qed.

Lemma loop_cache_mono policy changes st l b :
  validityCache st !! l = Some b →
  validityCache (foldl (body_next policy) st changes) !! l = Some b.
Proof.
  revert st. induction changes as [|c rest IH]; intros st Hb; [done|].
  simpl. by apply IH, body_next_cache_mono.
Qed.

Lemma body_next_caches policy st change l b :
  cache_sound policy (validityCache st) →
  license change = Some l → l ≠ "NOASSERTION" →
  verdict policy l = Returned (Some b) →
  validityCache (body_next policy st change) !! l = Some b.
Proof.
  intros [_ Hsound] Hc Hl Hv. rewrite body_next_cache, Hc.
  rewrite decide_False by done.
  destruct (decide (validityCache st !! l = None)) as [Hmiss|Hhit].
  - rewrite Hv. by rewrite lookup_insert_eq.
  - destruct (validityCache st !! l) as [b'|] eqn:Hb; [|done].
    apply Hsound in Hb. congruence.
Qed.

Lemma loop_caches policy changes st c l b :
  cache_sound policy (validityCache st) →
  c ∈ changes → license c = Some l → l ≠ "NOASSERTION" →
  verdict policy l = Returned (Some b) →
  validityCache (foldl (body_next policy) st changes) !! l = Some b.
Proof.
  intros Hsound Hin Hc Hl Hv. revert st Hsound.
  induction changes as [|c0 rest IH]; intros st Hsound.
  { by apply elem_of_nil in Hin. }
  simpl. apply elem_of_cons in Hin as [<-|Hin].
  - by apply loop_cache_mono, body_next_caches.
  - by apply IH, body_next_sound.
Qed.

(** ** The claims *)

(** C3. Whatever the changes and the policy, no change is in two of the
    three buckets [forbidden], [unresolved] and [unlicensed] that
    [getInvalidLicenseChanges] returns. *)
Theorem buckets_are_disjoint changes policy w :
  ∃ r w',
    getInvalidLicenseChanges changes policy w = (Returned r, w')
    ∧ ∀ c, ¬ (c ∈ forbidden r ∧ c ∈ unresolved r)
           ∧ ¬ (c ∈ forbidden r ∧ c ∈ unlicensed r)
           ∧ ¬ (c ∈ unresolved r ∧ c ∈ unlicensed r).
Proof.
  eexists _, _. split; [apply getInvalidLicenseChanges_run|].
  intros c. rewrite in_forbidden, in_unresolved, in_unlicensed.
  split_and!.
  - intros [[_ Hf] [_ Hr]]. congruence.
  - intros [[_ Hf] [Hu|[_ Hn]]]; [|congruence].
    apply group_unlicensed_elem in Hu as [_ Hu].
    apply (signal_Skipped policy) in Hu. congruence.
  - intros [[_ Hr] [Hu|[_ Hn]]]; [|congruence].
    apply group_unlicensed_elem in Hu as [_ Hu].
    apply (signal_Skipped policy) in Hu. congruence.
Qed.

(** C5. Whatever the changes and the policy, a change whose
    [change_type] is [removed] is in none of the buckets [forbidden],
    [unresolved] and [unlicensed]. *)
Theorem removed_change_in_no_bucket changes policy w :
  ∃ r w',
    getInvalidLicenseChanges changes policy w = (Returned r, w')
    ∧ ∀ c, change_type c = removed →
           (c ∉ forbidden r) ∧ (c ∉ unresolved r) ∧ (c ∉ unlicensed r).
Proof.
  eexists _, _. split; [apply getInvalidLicenseChanges_run|].
  intros c Hc. rewrite in_forbidden, in_unresolved, in_unlicensed.
  split_and!.
  - intros [Hin _]. by apply group_licensed_elem in Hin as [? _].
  - intros [Hin _]. by apply group_licensed_elem in Hin as [? _].
  - intros [Hin|[Hin _]].
    + by apply group_unlicensed_elem in Hin as [? _].
    + by apply group_licensed_elem in Hin as [? _].
Qed.

(** C10. Every change of the [licensed] group that [groupChanges]
    returns has a license string, so the loop of
    [getInvalidLicenseChanges] never takes its [license === null] branch
    on it: its iteration is the one for that string. *)
Theorem licensed_group_has_license changes w :
  ∃ g w',
    groupChanges changes w = (Returned g, w')
    ∧ ∀ c, c ∈ Grouped.licensed g →
           ∃ l, license c = Some l
                ∧ ∀ policy, signal policy c ≠ Skipped.
Proof.
  eexists _, _. split; [apply groupChanges_run|].
  intros c [_ Hl]%group_licensed_elem.
  destruct (license c) as [l|] eqn:Hc; [|done].
  exists l. split; [done|].
  intros policy Hs%signal_Skipped. congruence.
Qed.

(** C9. [setGHLicenses] returns one change for each change of its batch,
    in the same order: either the change itself, or a copy that differs
    from it in the license only (the source builds it by object spread
    and assigns to no field of a change).  The license of the copy is
    what [fetchGHLicense] returned for the repository parsed from the
    change's URL, in the world reached after the changes before it. *)
Theorem setGHLicenses_copies_changes changes w :
  ∃ out w',
    setGHLicenses changes w = (Returned out, w')
    ∧ length out = length changes
    ∧ ∀ i c,
        changes !! i = Some c →
        ∃ c' before wi,
          out !! i = Some c'
          ∧ setGHLicenses (take i changes) w = (Returned before, wi)
          ∧ (c' = c
             ∨ ∃ url gh wi',
                 source_repository_url c = Some url
                 ∧ parseGitHubURL url wi = (Returned (Some gh), wi)
                 ∧ fetchGHLicense (owner gh) (repo gh) wi
                   = (Returned (license c'), wi')
                 ∧ name c' = name c
                 ∧ version c' = version c
                 ∧ manifest c' = manifest c
                 ∧ change_type c' = change_type c
                 ∧ source_repository_url c' = source_repository_url c).
Proof.
  eexists _, _. split; [apply setGHLicenses_run|].
  split; [symmetry; eapply Forall2_length, resolve_all_Forall2|].
  intros i c Hi. eexists _, _, _.
  split; [by apply resolve_all_lookup|].
  split; [apply setGHLicenses_run|].
  destruct (lookup_of c) as [gh|] eqn:Hgh; [|by left].
  right. unfold lookup_of in Hgh.
  destruct (license c); [done|].
  destruct (source_repository_url c) as [url|] eqn:Hu; [|done].
  exists url, gh. eexists. split; [done|].
  rewrite parseGitHubURL_run, fetchGHLicense_run, Hgh. simpl.
  by rewrite length_app.
Qed.

Lemma resolved_NOASSERTION policy n changes i c gh :
  filter needs_lookup changes !! i = Some c →
  lookup_of c = Some gh →
  fetch_result (n + length (lookups (take i (filter needs_lookup changes))))
    (owner gh) (repo gh) = Some "NOASSERTION" →
  let c' := with_license c (Some "NOASSERTION") in
  let r := invalidLicenseChanges
             (final_locals policy (group_result n changes)) in
  c' ∈ unlicensed r ∧ (c' ∉ forbidden r) ∧ (c' ∉ unresolved r).
Proof.
  intros Hi Hgh Hfetch c' r. subst c' r.
  pose proof (resolve_all_lookup n _ _ _ Hi) as Hres.
  rewrite Hgh, Hfetch in Hres.
  apply list_elem_of_lookup_2 in Hres.
  assert (with_license c (Some "NOASSERTION")
          ∈ Grouped.licensed (group_result n changes)) as Hin.
  { unfold group_result. cbn [Grouped.licensed]. apply elem_of_app. right.
    apply list_elem_of_filter. split; [done|exact Hres]. }
  rewrite in_forbidden, in_unresolved, in_unlicensed.
  assert (signal policy (with_license c (Some "NOASSERTION")) = NoAssertion)
    as Hs by (by apply signal_NoAssertion).
  split_and!.
  - by right.
  - intros [_ ?]. congruence.
  - intros [_ ?]. congruence.
Qed.

(** C4. A change that is not removed and whose license is exactly
    "NOASSERTION" is in [unlicensed] and neither in [forbidden] nor in
    [unresolved], whatever the policy, be it the license the change came
    with or the one remote resolution gave it: an input change that is
    not removed, has no license and a URL that [parseGitHubURL] accepts,
    and whose lookup answers "NOASSERTION", has its copy with that
    license in [unlicensed] and in no other bucket.  (The lookup is the
    one [setGHLicenses] makes for the change, in the world reached after
    the changes before it in [ghChanges]; in particular a repository
    that always answers "NOASSERTION" will do.)  No satisfaction check is
    made for "NOASSERTION". *)
Theorem NOASSERTION_is_unlicensed changes policy w :
  ∃ g w1 r w',
    groupChanges changes w = (Returned g, w1)
    ∧ getInvalidLicenseChanges changes policy w = (Returned r, w')
    ∧ (∀ c, license c = Some "NOASSERTION" →
            (c ∈ changes ∧ change_type c ≠ removed) ∨ c ∈ Grouped.licensed g →
            c ∈ unlicensed r ∧ (c ∉ forbidden r) ∧ (c ∉ unresolved r))
    ∧ (∀ c url gh,
         c ∈ changes → change_type c ≠ removed → license c = None →
         source_repository_url c = Some url →
         parseGitHubURL url w = (Returned (Some gh), w) →
         (∀ w0, ∃ w0',
            fetchGHLicense (owner gh) (repo gh) w0
            = (Returned (Some "NOASSERTION"), w0')) →
         with_license c (Some "NOASSERTION") ∈ unlicensed r
         ∧ (with_license c (Some "NOASSERTION") ∉ forbidden r)
         ∧ (with_license c (Some "NOASSERTION") ∉ unresolved r))
    ∧ (∀ i c url gh before wi wi',
         ghChanges (foldl groupChanges_body
                      {| result := Grouped.mk [] []; ghChanges := [] |}
                      changes) !! i = Some c →
         license c = None → source_repository_url c = Some url →
         parseGitHubURL url wi = (Returned (Some gh), wi) →
         setGHLicenses
           (take i (ghChanges (foldl groupChanges_body
                                 {| result := Grouped.mk [] [];
                                    ghChanges := [] |}
                                 changes))) w
         = (Returned before, wi) →
         fetchGHLicense (owner gh) (repo gh) wi
         = (Returned (Some "NOASSERTION"), wi') →
         with_license c (Some "NOASSERTION") ∈ unlicensed r
         ∧ (with_license c (Some "NOASSERTION") ∉ forbidden r)
         ∧ (with_license c (Some "NOASSERTION") ∉ unresolved r))
    ∧ ∃ new, checks w' = checks w ++ new
             ∧ ∀ e, ("NOASSERTION", e) ∉ new.
Proof.
  eexists _, _, _, _.
  split; [apply groupChanges_run|].
  split; [apply getInvalidLicenseChanges_run|].
  split; [|split; [|split]].
  - intros c Hc Hin.
    rewrite in_forbidden, in_unresolved, in_unlicensed.
    pose proof (proj2 (signal_NoAssertion policy c) Hc) as Hs.
    split_and!.
    + right. split; [|done]. destruct Hin as [[Hin Ht]|Hin]; [|done].
      by eapply group_keeps_licensed.
    + intros [_ ?]. congruence.
    + intros [_ ?]. congruence.
  - intros c url gh Hin Ht Hl Hu Hparse Hfetch.
    rewrite parseGitHubURL_run in Hparse. injection Hparse as Hparse.
    assert (c ∈ filter needs_lookup changes) as Hbatch.
    { apply list_elem_of_filter. split; [|done].
      unfold needs_lookup. by rewrite Hl, Hu. }
    apply list_elem_of_lookup_1 in Hbatch as [i Hi].
    apply (resolved_NOASSERTION policy _ changes i c gh Hi).
    + unfold lookup_of. by rewrite Hl, Hu.
    + set (m := length (requests w)
                + length (lookups (take i (filter needs_lookup changes)))).
      destruct (Hfetch {| requests := replicate m ("", ""); checks := [] |})
        as [w0' Hw0].
      rewrite fetchGHLicense_run in Hw0. injection Hw0 as Hw0 _.
      simpl in Hw0. by rewrite length_replicate in Hw0.
  - intros i c url gh before wi wi' Hi Hl Hu Hparse Hbefore Hfetch.
    rewrite groupChanges_first_loop in Hi, Hbefore.
    cbn [ghChanges] in Hi, Hbefore. rewrite app_nil_l in Hi, Hbefore.
    rewrite parseGitHubURL_run in Hparse. injection Hparse as Hparse.
    rewrite setGHLicenses_run in Hbefore. injection Hbefore as _ <-.
    rewrite fetchGHLicense_run in Hfetch. injection Hfetch as Hfetch _.
    apply (resolved_NOASSERTION policy _ changes i c gh Hi).
    + unfold lookup_of. by rewrite Hl, Hu.
    + simpl in Hfetch. by rewrite length_app in Hfetch.
  - eexists. split; [done|].
    intros e Hin%run_checks_elem. by destruct Hin.
Qed.

(** C2. For a change of the [licensed] group whose license is not
    "NOASSERTION": when [allow] is configured and matching the license
    against it does not throw, the change is in [forbidden] exactly when
    the license satisfies no expression of [allow], whatever [deny] is;
    when [allow] is absent, [deny] is configured and matching against it
    does not throw, the change is in [forbidden] exactly when the license
    satisfies some expression of [deny]. *)
Theorem forbidden_iff_policy_violated changes policy w :
  ∃ g w1 r w',
    groupChanges changes w = (Returned g, w1)
    ∧ getInvalidLicenseChanges changes policy w = (Returned r, w')
    ∧ ∀ c l,
        c ∈ Grouped.licensed g → license c = Some l → l ≠ "NOASSERTION" →
        (∀ allowed,
           allow policy = Some allowed →
           find_outcome l allowed ≠ Thrown →
           c ∈ forbidden r
           ↔ ∀ e, e ∈ allowed → spdx_satisfies l e ≠ Some true)
        ∧ (∀ denied,
             allow policy = None → deny policy = Some denied →
             find_outcome l denied ≠ Thrown →
             c ∈ forbidden r
             ↔ ∃ e, e ∈ denied ∧ spdx_satisfies l e = Some true).
Proof.
  eexists _, _, _, _.
  split; [apply groupChanges_run|].
  split; [apply getInvalidLicenseChanges_run|].
  intros c l Hin Hc Hl.
  assert (∀ g, c ∈ Grouped.licensed g →
               c ∈ forbidden (invalidLicenseChanges (final_locals policy g))
               ↔ verdict policy l = Returned (Some false)) as Hforbidden.
  { intros g Hg. rewrite in_forbidden, signal_Forbidden. split.
    - intros [_ (l' & Hl' & _ & Hv)]. congruence.
    - intros Hv. split; [done|]. by exists l. }
  pose proof (Hforbidden _ Hin) as Hiff. clear Hforbidden. split.
  - intros allowed Ha Hno. rewrite Hiff. unfold verdict. rewrite Ha.
    destruct (find_outcome l allowed) as [found|] eqn:Hf; [|done].
    rewrite <- (find_outcome_None _ _ _ Hf). split.
    + intros [= Hb]. apply bool_decide_eq_false in Hb.
      by apply dec_stable.
    + intros ->. by rewrite bool_decide_eq_false_2 by (intros ?; done).
  - intros denied Ha Hd Hno. rewrite Hiff. unfold verdict. rewrite Ha, Hd.
    destruct (find_outcome l denied) as [found|] eqn:Hf; [|done].
    split.
    + intros [= Hb]. apply bool_decide_eq_false in Hb.
      destruct found as [e|]; [|done].
      exists e. by apply find_outcome_Some.
    + intros (e & He & Hs). f_equal. f_equal.
      apply bool_decide_eq_false. intros Hnone.
      by apply (proj1 (find_outcome_None _ _ _ Hf) Hnone e He).
Qed.

(** C7. When a satisfaction check made for the license of a change of
    the [licensed] group throws, the change is in [unresolved] and the
    cache holds no boolean for that license; and
    [getInvalidLicenseChanges] returns, it never throws. *)
Theorem throwing_check_is_unresolved changes policy w :
  ∃ g w1 st w',
    groupChanges changes w = (Returned g, w1)
    ∧ getInvalidLicenseChanges_locals changes policy w = (Returned st, w')
    ∧ getInvalidLicenseChanges changes policy w
      = (Returned (invalidLicenseChanges st), w')
    ∧ ∃ new, checks w' = checks w ++ new
             ∧ ∀ c l e,
                 c ∈ Grouped.licensed g → license c = Some l →
                 (l, e) ∈ new → spdx_satisfies l e = None →
                 c ∈ unresolved (invalidLicenseChanges st)
                 ∧ validityCache st !! l = None.
Proof.
  eexists _, _, _, _.
  split; [apply groupChanges_run|].
  split; [apply getInvalidLicenseChanges_locals_run|].
  split; [apply getInvalidLicenseChanges_run|].
  eexists. split; [done|].
  intros c l e Hin Hc [Hl Hcheck]%run_checks_elem He.
  pose proof (verdict_checks_thrown _ _ _ Hcheck He) as Hv.
  split.
  - apply in_unresolved. split; [done|].
    apply signal_Unresolved. by exists l.
  - destruct (final_buckets policy
                (group_result (length (requests w)) changes))
      as ([_ Hsound] & _).
    destruct (validityCache _ !! l) as [b|] eqn:Hb; [|done].
    apply Hsound in Hb. congruence.
Qed.

(** C6. In one run the checks made for a license that is not
    "NOASSERTION" are those of at most one pass of the matching when the
    matching succeeds, however many changes of the [licensed] group carry
    the license; the cache holds only booleans that the matching
    returned, and holds the one returned for a license some change
    carries; and for a license on which the matching throws the cache
    holds nothing and the pass is made once for every change that
    carries it. *)
Theorem matching_is_cached changes policy w :
  ∃ g w1 st w',
    groupChanges changes w = (Returned g, w1)
    ∧ getInvalidLicenseChanges_locals changes policy w = (Returned st, w')
    ∧ (∀ l b, validityCache st !! l = Some b →
              verdict policy l = Returned (Some b))
    ∧ ∃ new, checks w' = checks w ++ new
             ∧ checks_for "NOASSERTION" new = []
             ∧ ∀ l, l ≠ "NOASSERTION" →
                 let n := length (carriers l (Grouped.licensed g)) in
                 match verdict policy l with
                 | Returned found =>
                     checks_for l new
                     = concat (replicate (Nat.min 1 n)
                                 (verdict_checks policy l))
                     ∧ ∀ b, found = Some b → 0 < n →
                            validityCache st !! l = Some b
                 | Thrown =>
                     validityCache st !! l = None
                     ∧ checks_for l new
                       = concat (replicate n (verdict_checks policy l))
                 end.
Proof.
  eexists _, _, _, _.
  split; [apply groupChanges_run|].
  split; [apply getInvalidLicenseChanges_locals_run|].
  destruct (final_buckets policy
              (group_result (length (requests w)) changes))
    as ([_ Hsound] & _).
  split; [exact Hsound|].
  eexists. split; [done|].
  split; [apply loop_checks_NOASSERTION|].
  intros l Hl n. subst n. rewrite run_checks_for by done. cbv zeta.
  destruct (verdict policy l) as [found|] eqn:Hv.
  - split; [by destruct found|]. intros b -> Hn.
    destruct (carriers l _) as [|c cs] eqn:Hcs; [simpl in Hn; lia|].
    assert (c ∈ carriers l
                  (Grouped.licensed
                     (group_result (length (requests w)) changes)))
      as [Hc Hin]%list_elem_of_filter by (rewrite Hcs; by left).
    eapply loop_caches; [apply cache_sound_empty|done..].
  - split; [|done].
    destruct (validityCache _ !! l) as [b|] eqn:Hb; [|done].
    apply Hsound in Hb. congruence.
Qed.

Lemma split_length sep s : 0 < length (split sep s).
Proof.
  induction s as [|c rest IH]; simpl; [lia|].
  case_decide; simpl; [lia|].
  destruct (split sep rest); simpl in *; lia.
Qed.

Lemma no_repository_parse_result url :
  no_repository url → parse_result url = None.
Proof.
  unfold no_repository, parse_result, path_segments.
  destruct (URL_parse url) as [parsed|]; [|done].
  intros [Hhost|Hlen]; [by rewrite decide_True|].
  case_decide; [done|]. rewrite decide_True; [done|].
  pose proof (split_length "/" (pathname parsed)).
  destruct (split "/" (pathname parsed)); simpl in *; lia.
Qed.

(** C8. For a URL that the [URL] constructor rejects, or whose host is
    not "github.com", or that has fewer than two path segments after the
    host, [parseGitHubURL] returns [null] and so the callback of
    [setGHLicenses] returns a change without license as it is and asks
    for nothing; such a change, when not removed, ends in [unlicensed].
    [parseGitHubURL] never throws; [fetchGHLicense] never throws and
    returns [null] when the request fails or the repository has no
    license object; [setGHLicenses] always returns a result for each
    change of the batch. *)
Theorem resolution_degrades_to_no_license url (Hbad : no_repository url) :
  (∀ w, parseGitHubURL url w = (Returned None, w))
  ∧ (∀ c w,
       license c = None → source_repository_url c = Some url →
       setGHLicenses_callback c w = (Returned c, w))
  ∧ (∀ changes policy w c,
       c ∈ changes → change_type c ≠ removed →
       license c = None → source_repository_url c = Some url →
       ∃ r w',
         getInvalidLicenseChanges changes policy w = (Returned r, w')
         ∧ c ∈ unlicensed r)
  ∧ (∀ url' w, ∃ r, parseGitHubURL url' w = (Returned r, w))
  ∧ (∀ owner repo w,
       ∃ l w',
         fetchGHLicense owner repo w = (Returned l, w')
         ∧ (licenses_getForRepo (length (requests w)) owner repo = None
            ∨ licenses_getForRepo (length (requests w)) owner repo
              = Some None →
            l = None))
  ∧ (∀ changes w,
       ∃ out w',
         setGHLicenses changes w = (Returned out, w')
         ∧ length out = length changes).
Proof.
  pose proof (no_repository_parse_result url Hbad) as Hparse.
  assert (∀ c, license c = None → source_repository_url c = Some url →
               lookup_of c = None) as Hlookup.
  { intros c Hl Hu. unfold lookup_of. by rewrite Hl, Hu. }
  split_and!.
  - intros w. by rewrite parseGitHubURL_run, Hparse.
  - intros c w Hl Hu.
    by rewrite setGHLicenses_callback_run, (Hlookup c Hl Hu).
  - intros changes policy w c Hin Ht Hl Hu. eexists _, _.
    split; [apply getInvalidLicenseChanges_run|].
    apply in_unlicensed. left. unfold group_result. simpl.
    apply elem_of_app. right. apply list_elem_of_filter. split; [done|].
    apply resolve_all_unchanged; [|by apply Hlookup].
    apply list_elem_of_filter. split; [|done].
    unfold needs_lookup. rewrite Hl, Hu. done.
  - intros url' w. eexists. apply parseGitHubURL_run.
  - intros owner repo w. eexists _, _.
    split; [apply fetchGHLicense_run|].
    unfold fetch_result. by intros [->| ->].
  - intros changes w. eexists _, _.
    split; [apply setGHLicenses_run|].
    symmetry. eapply Forall2_length, resolve_all_Forall2.
Qed.

(** C1. What [groupChanges] does with a change that is not removed, has
    a source URL, and whose license has 255 characters and is not valid
    SPDX: the change is put in [ghChanges], but the callback of
    [setGHLicenses] returns it as it is and asks for nothing, so it
    joins [licensed] with the cut license, and that string is matched
    against the policy. *)
Theorem truncated_license_is_not_resolved c l url
    (Ht : change_type c ≠ removed)
    (Hl : license c = Some l)
    (Hlen : String.length l = 255)
    (Hv : isSPDXValid l = false)
    (Hu : source_repository_url c = Some url) :
  truncatedDGLicense l = true
  ∧ (∀ w, setGHLicenses_callback c w = (Returned c, w))
  ∧ ∀ changes policy w,
      c ∈ changes →
      c ∈ ghChanges (foldl groupChanges_body
                       {| result := Grouped.mk [] []; ghChanges := [] |}
                       changes)
      ∧ ∃ g w1 r w',
          groupChanges changes w = (Returned g, w1)
          ∧ getInvalidLicenseChanges changes policy w = (Returned r, w')
          ∧ c ∈ Grouped.licensed g
          ∧ ∃ new, checks w' = checks w ++ new
                   ∧ ∀ check, check ∈ verdict_checks policy l → check ∈ new.
Proof.
  assert (truncatedDGLicense l = true) as Htr.
  { unfold truncatedDGLicense. rewrite Hv.
    by rewrite bool_decide_eq_true_2. }
  assert (l ≠ "NOASSERTION") as Hna by (intros ->; done).
  split; [done|]. split.
  { intros w. rewrite setGHLicenses_callback_run. unfold lookup_of.
    by rewrite Hl. }
  intros changes policy w Hin. split.
  { rewrite groupChanges_first_loop. simpl.
    apply list_elem_of_filter. split; [|done].
    unfold needs_lookup. rewrite Hl, Hu. done. }
  eexists _, _, _, _.
  split; [apply groupChanges_run|].
  split; [apply getInvalidLicenseChanges_run|].
  assert (c ∈ Grouped.licensed
                (group_result (length (requests w)) changes)) as Hg
    by (by eapply group_keeps_licensed).
  split; [done|].
  eexists. split; [done|].
  intros check Hcheck. by eapply run_checks_carrier.
Qed.

End Proofs.

(** ** The claims on sample runs *)

(** C1 on [cut_change]: no request is made, and the cut license is
    matched against [allow]. *)
Lemma truncated_license_is_not_resolved_sample :
  @setGHLicenses_callback stub cut_change new_world
  = (Returned cut_change, new_world)
  ∧ ∃ r w',
      @getInvalidLicenseChanges stub [cut_change] allow_MIT new_world
      = (Returned r, w')
      ∧ requests w' = []
      ∧ (cut_license, "MIT") ∈ checks w'
      ∧ cut_change ∈ unresolved r.
Proof.
  destruct (@truncated_license_is_not_resolved stub cut_change cut_license
              "https://github.com/acme/widget")
    as (_ & Hcallback & Hrun);
    [discriminate|reflexivity|vm_compute; reflexivity
    |vm_compute; reflexivity|reflexivity|].
  split; [apply Hcallback|].
  destruct (Hrun [cut_change] allow_MIT new_world)
    as (_ & g & w1 & r & w' & _ & Hr & _ & new & Hnew & Hchecks);
    [by left|].
  exists r, w'. split; [exact Hr|].
  assert ((cut_license, "MIT") ∈ checks w') as Hin.
  { rewrite Hnew. apply elem_of_app. right. apply Hchecks. by left. }
  split; [|split; [exact Hin|]].
  - vm_compute in Hr. by injection Hr as <- <-.
  - vm_compute in Hr. injection Hr as <- _. by left.
Defined.

(** C2 on a GPL and an MIT change: with [allow = ["MIT"]], and with
    [deny = ["GPL-3.0"]], the GPL change is forbidden and the MIT change
    is not. *)
Lemma forbidden_iff_policy_violated_sample :
  (∃ r w',
     @getInvalidLicenseChanges stub [gpl_change; mit_change] allow_MIT
       new_world = (Returned r, w')
     ∧ gpl_change ∈ forbidden r ∧ mit_change ∉ forbidden r)
  ∧ (∃ r w',
       @getInvalidLicenseChanges stub [gpl_change; mit_change] deny_GPL
         new_world = (Returned r, w')
       ∧ gpl_change ∈ forbidden r ∧ mit_change ∉ forbidden r).
Proof.
  split.
  - destruct (@forbidden_iff_policy_violated stub [gpl_change; mit_change]
                allow_MIT new_world)
      as (g & w1 & r & w' & Hg & Hr & H).
    vm_compute in Hg. injection Hg as <- <-.
    exists r, w'. split; [exact Hr|]. split.
    + destruct (H gpl_change "GPL-3.0") as [Hallow _];
        [by left|reflexivity|discriminate|].
      apply (Hallow ["MIT"]); [reflexivity|vm_compute; discriminate|].
      intros e ->%list_elem_of_singleton. vm_compute. discriminate.
    + destruct (H mit_change "MIT") as [Hallow _];
        [right; by left|reflexivity|discriminate|].
      assert (@find_outcome stub "MIT" ["MIT"] ≠ Thrown) as Hno
        by (vm_compute; discriminate).
      intros Hin.
      pose proof (proj1 (Hallow ["MIT"] eq_refl Hno) Hin) as Hall.
      apply (Hall "MIT"); [by left|vm_compute; reflexivity].
  - destruct (@forbidden_iff_policy_violated stub [gpl_change; mit_change]
                deny_GPL new_world)
      as (g & w1 & r & w' & Hg & Hr & H).
    vm_compute in Hg. injection Hg as <- <-.
    exists r, w'. split; [exact Hr|]. split.
    + destruct (H gpl_change "GPL-3.0") as [_ Hdeny];
        [by left|reflexivity|discriminate|].
      apply (Hdeny ["GPL-3.0"]);
        [reflexivity|reflexivity|vm_compute; discriminate|].
      exists "GPL-3.0". split; [by left|vm_compute; reflexivity].
    + destruct (H mit_change "MIT") as [_ Hdeny];
        [right; by left|reflexivity|discriminate|].
      assert (@find_outcome stub "MIT" ["GPL-3.0"] ≠ Thrown) as Hno
        by (vm_compute; discriminate).
      intros Hin.
      destruct (proj1 (Hdeny ["GPL-3.0"] eq_refl eq_refl Hno) Hin)
        as (e & ->%list_elem_of_singleton & He).
      vm_compute in He. discriminate.
Defined.

(** C4 on a change that comes with "NOASSERTION" and on one whose
    repository answers "NOASSERTION": both end in [unlicensed], and no
    check is made. *)
Lemma NOASSERTION_is_unlicensed_sample :
  ∃ r w',
    @getInvalidLicenseChanges stub [noassertion_change; gadget_change]
      allow_MIT new_world = (Returned r, w')
    ∧ noassertion_change ∈ unlicensed r
    ∧ with_license gadget_change (Some "NOASSERTION") ∈ unlicensed r
    ∧ (noassertion_change ∉ forbidden r)
    ∧ (with_license gadget_change (Some "NOASSERTION") ∉ forbidden r)
    ∧ (with_license gadget_change (Some "NOASSERTION") ∉ unresolved r)
    ∧ requests w' = [("acme", "gadget")].
Proof.
  destruct (@NOASSERTION_is_unlicensed stub
              [noassertion_change; gadget_change] allow_MIT new_world)
    as (g & w1 & r & w' & Hg & Hr & H & Hresolved & _).
  vm_compute in Hg. injection Hg as <- <-.
  exists r, w'. split; [exact Hr|].
  destruct (H noassertion_change) as (Hu & Hf & _);
    [reflexivity|left; split; [by left|discriminate]|].
  destruct (Hresolved gadget_change "https://github.com/acme/gadget"
              {| owner := "acme"; repo := "gadget" |})
    as (Hu' & Hf' & Hr');
    [right; by left|discriminate|reflexivity|reflexivity
    |vm_compute; reflexivity| |].
  { intros w0. eexists. reflexivity. }
  split_and!; [done..|].
  vm_compute in Hr. by injection Hr as <- <-.
Defined.

(** C5 on a removed change next to a forbidden one. *)
Lemma removed_change_in_no_bucket_sample :
  ∃ r w',
    @getInvalidLicenseChanges stub [removed_change; gpl_change] allow_MIT
      new_world = (Returned r, w')
    ∧ (removed_change ∉ forbidden r)
    ∧ (removed_change ∉ unresolved r)
    ∧ (removed_change ∉ unlicensed r)
    ∧ gpl_change ∈ forbidden r.
Proof.
  destruct (@removed_change_in_no_bucket stub [removed_change; gpl_change]
              allow_MIT new_world) as (r & w' & Hr & H).
  exists r, w'. split; [exact Hr|].
  destruct (H removed_change) as (Hf & Hr' & Hu); [reflexivity|].
  split_and!; [done..|].
  vm_compute in Hr. injection Hr as <- _. by left.
Defined.

(** C6 on two MIT changes and two changes with a malformed license: MIT
    is matched once and cached, the malformed license is matched twice
    and not cached. *)
Lemma matching_is_cached_sample :
  ∃ st w',
    @getInvalidLicenseChanges_locals stub
      [mit_change; bogus_change; mit_again; bogus_again] allow_MIT
      new_world = (Returned st, w')
    ∧ checks_for "MIT" (checks w') = [("MIT", "MIT")]
    ∧ checks_for "not-a-license" (checks w')
      = [("not-a-license", "MIT"); ("not-a-license", "MIT")]
    ∧ validityCache st !! "not-a-license" = None.
Proof.
  destruct (@matching_is_cached stub
              [mit_change; bogus_change; mit_again; bogus_again] allow_MIT
              new_world)
    as (g & w1 & st & w' & Hg & Hst & _ & new & Hnew & _ & H).
  vm_compute in Hg. injection Hg as <- <-.
  exists st, w'. split; [exact Hst|].
  assert (checks w' = new) as -> by exact Hnew.
  pose proof (H "MIT" ltac:(discriminate)) as Hmit.
  pose proof (H "not-a-license" ltac:(discriminate)) as Hbogus.
  vm_compute in Hmit. vm_compute in Hbogus.
  destruct Hmit as [Hmit _]. destruct Hbogus as [Hcache Hchecks].
  split_and!; [exact Hmit|exact Hchecks|exact Hcache].
Defined.

(** C7 on a change with a malformed license. *)
Lemma throwing_check_is_unresolved_sample :
  ∃ st w',
    @getInvalidLicenseChanges_locals stub [bogus_change] allow_MIT new_world
    = (Returned st, w')
    ∧ @getInvalidLicenseChanges stub [bogus_change] allow_MIT new_world
      = (Returned (invalidLicenseChanges st), w')
    ∧ bogus_change ∈ unresolved (invalidLicenseChanges st)
    ∧ validityCache st !! "not-a-license" = None.
Proof.
  destruct (@throwing_check_is_unresolved stub [bogus_change] allow_MIT
              new_world)
    as (g & w1 & st & w' & Hg & Hst & Hr & new & Hnew & H).
  vm_compute in Hg. injection Hg as <- <-.
  exists st, w'. split; [exact Hst|]. split; [exact Hr|].
  apply (H bogus_change "not-a-license" "MIT");
    [by left|reflexivity| |vm_compute; reflexivity].
  assert (checks w' = new) as <- by exact Hnew.
  vm_compute in Hst. injection Hst as _ <-. by left.
Defined.

(** C8 on a GitLab URL: [parseGitHubURL] returns [null], nothing is
    requested, and the change ends in [unlicensed]. *)
Lemma resolution_degrades_to_no_license_sample :
  @no_repository stub "https://gitlab.com/acme/widget"
  ∧ @parseGitHubURL stub "https://gitlab.com/acme/widget" new_world
    = (Returned None, new_world)
  ∧ @setGHLicenses_callback stub gitlab_change new_world
    = (Returned gitlab_change, new_world)
  ∧ ∃ r w',
      @getInvalidLicenseChanges stub [gitlab_change] allow_MIT new_world
      = (Returned r, w')
      ∧ gitlab_change ∈ unlicensed r
      ∧ requests w' = [].
Proof.
  assert (@no_repository stub "https://gitlab.com/acme/widget") as Hbad
    by (vm_compute; left; discriminate).
  destruct (@resolution_degrades_to_no_license stub
              "https://gitlab.com/acme/widget" Hbad)
    as (Hparse & Hcallback & Hrun & _).
  split; [exact Hbad|]. split; [apply Hparse|].
  split; [by apply Hcallback|].
  destruct (Hrun [gitlab_change] allow_MIT new_world gitlab_change)
    as (r & w' & Hr & Hin); [by left|discriminate|reflexivity|reflexivity|].
  exists r, w'. split; [exact Hr|]. split; [exact Hin|].
  vm_compute in Hr. by injection Hr as <- <-.
Defined.

(** C10 on a change whose license is resolved remotely and one that
    comes with a license. *)
Lemma licensed_group_has_license_sample :
  ∃ g w',
    @groupChanges stub [widget_change; mit_change; gitlab_change] new_world
    = (Returned g, w')
    ∧ Grouped.licensed g
      = [mit_change; with_license widget_change (Some "Apache-2.0")]
    ∧ ∀ c, c ∈ Grouped.licensed g → ∃ l, license c = Some l.
Proof.
  destruct (@licensed_group_has_license stub
              [widget_change; mit_change; gitlab_change] new_world)
    as (g & w' & Hg & H).
  exists g, w'. split; [exact Hg|]. split.
  - vm_compute in Hg. by injection Hg as <- <-.
  - intros c Hc. destruct (H c Hc) as (l & Hl & _). by exists l.
Defined.

(** C3 on a run that fills the three buckets: the forbidden change is in
    no other bucket. *)
Lemma buckets_are_disjoint_sample :
  ∃ r w',
    @getInvalidLicenseChanges stub
      [gpl_change; bogus_change; noassertion_change; mit_change] allow_MIT
      new_world = (Returned r, w')
    ∧ gpl_change ∈ forbidden r
    ∧ (gpl_change ∉ unresolved r)
    ∧ (gpl_change ∉ unlicensed r)
    ∧ bogus_change ∈ unresolved r
    ∧ (bogus_change ∉ unlicensed r).
Proof.
  destruct (@buckets_are_disjoint stub
              [gpl_change; bogus_change; noassertion_change; mit_change]
              allow_MIT new_world) as (r & w' & Hr & H).
  exists r, w'. split; [exact Hr|].
  destruct (H gpl_change) as (Hfr & Hfu & _).
  destruct (H bogus_change) as (_ & _ & Hru).
  assert (gpl_change ∈ forbidden r ∧ bogus_change ∈ unresolved r)
    as [Hgpl Hbogus].
  { vm_compute in Hr. injection Hr as <- _. split; by left. }
  split_and!; [done| | |done|]; intros ?; tauto.
Defined.

(** C9 on a batch of three: the first change is copied with the license
    of its repository, and the copy keeps its name. *)
Lemma setGHLicenses_copies_changes_sample :
  ∃ out w' c',
    @setGHLicenses stub [widget_change; gitlab_change; mit_change] new_world
    = (Returned out, w')
    ∧ length out = 3
    ∧ out !! 0 = Some c'
    ∧ license c' = Some "Apache-2.0"
    ∧ name c' = "widget"
    ∧ source_repository_url c' = Some "https://github.com/acme/widget"
    ∧ out !! 1 = Some gitlab_change.
Proof.
  destruct (@setGHLicenses_copies_changes stub
              [widget_change; gitlab_change; mit_change] new_world)
    as (out & w' & Hrun & Hlen & H).
  destruct (H 0 widget_change eq_refl)
    as (c' & before & wi & Hout & _ & Hcases).
  exists out, w', c'. split; [exact Hrun|]. split; [exact Hlen|].
  split; [exact Hout|].
  vm_compute in Hrun. injection Hrun as <- _.
  destruct Hcases as [->|(url & gh & wi' & _ & _ & _ & Hn & _ & _ & _ & Hu)].
  { discriminate Hout. }
  split_and!; [|exact Hn|exact Hu|reflexivity].
  by injection Hout as <-.
Defined.

(** ** Further properties of the license pipeline *)

Section Further.
Context `{!Externals}.

Lemma filter_none {A} (P : A → Prop) `{!∀ x, Decision (P x)} (l : list A) :
  (∀ x, x ∈ l → ¬ P x) → filter P l = [].
Proof.
  induction l as [|x l IH]; intros Hall; [done|].
  rewrite filter_cons_False by (apply Hall; by left).
  apply IH. intros y Hy. apply Hall. by right.
Qed.

Lemma filter_ext_in {A} (P Q : A → Prop)
    `{!∀ x, Decision (P x)} `{!∀ x, Decision (Q x)} (l : list A) :
  (∀ x, x ∈ l → P x ↔ Q x) → filter P l = filter Q l.
Proof.
  induction l as [|x l IH]; intros Hall; [done|].
  rewrite !filter_cons.
  rewrite IH by (intros y Hy; apply Hall; by right).
  destruct (Hall x) as [HPQ HQP]; [by left|].
  destruct (decide (P x)), (decide (Q x)); tauto.
Qed.

Lemma loop_checks_none policy changes st :
  (∀ l, verdict_checks policy l = []) → loop_checks policy st changes = [].
Proof.
  intros Hnone. revert st.
  induction changes as [|c rest IH]; intros st; simpl; [done|].
  rewrite IH, app_nil_r. unfold body_checks.
  destruct (license c) as [l|]; [|done].
  repeat case_decide; done.
Qed.

Lemma find_outcome_app_false l before rest :
  (∀ e, e ∈ before → spdx_satisfies l e = Some false) →
  find_outcome l (before ++ rest) = find_outcome l rest
  ∧ find_checks l (before ++ rest)
    = ((λ e, (l, e)) <$> before) ++ find_checks l rest.
Proof.
  induction before as [|e0 before IH]; intros Hall; simpl; [done|].
  rewrite (Hall e0) by (by left).
  destruct IH as [-> ->]; [intros e He; apply Hall; by right|done].
Qed.

Lemma find_outcome_all_false l exprs :
  (∀ e, e ∈ exprs → spdx_satisfies l e = Some false) →
  find_outcome l exprs = Returned None.
Proof.
  intros Hall.
  destruct (find_outcome_app_false l exprs [] Hall) as [Ho _].
  by rewrite app_nil_r in Ho.
Qed.

Lemma not_in_unlicensed_group n changes c l :
  license c = Some l → c ∉ Grouped.unlicensed (group_result n changes).
Proof. intros Hl [_ Hn]%group_unlicensed_elem. congruence. Qed.

(** A change of the [licensed] group whose license gets a [true] verdict,
    or none, is in no bucket. *)
Lemma accepted_in_no_bucket policy n changes c l :
  c ∈ Grouped.licensed (group_result n changes) →
  license c = Some l → l ≠ "NOASSERTION" →
  verdict policy l = Returned (Some true) ∨ verdict policy l = Returned None →
  let r := invalidLicenseChanges
             (final_locals policy (group_result n changes)) in
  (c ∉ forbidden r) ∧ (c ∉ unresolved r) ∧ (c ∉ unlicensed r).
Proof.
  intros Hin Hl Hna Hv r. subst r.
  rewrite in_forbidden, in_unresolved, in_unlicensed.
  split_and!.
  - intros [_ (l' & Hl' & _ & Hv')%signal_Forbidden].
    destruct Hv; congruence.
  - intros [_ (l' & Hl' & _ & Hv')%signal_Unresolved].
    destruct Hv; congruence.
  - intros [Hu|[_ Hs%signal_NoAssertion]]; [|congruence].
    by eapply not_in_unlicensed_group.
Qed.

(** X1. When neither [allow] nor [deny] is configured, nothing is
    forbidden or unresolved and [spdxSatisfies] is never called: the
    result holds only the unlicensed changes, those of the grouping
    followed by the changes whose license is "NOASSERTION". *)
Theorem no_policy_accepts_everything changes policy w
    (Ha : allow policy = None) (Hd : deny policy = None) :
  ∃ g w1 r w',
    groupChanges changes w = (Returned g, w1)
    ∧ getInvalidLicenseChanges changes policy w = (Returned r, w')
    ∧ forbidden r = []
    ∧ unresolved r = []
    ∧ unlicensed r
      = Grouped.unlicensed g
        ++ filter (λ c, license c = Some "NOASSERTION") (Grouped.licensed g)
    ∧ checks w' = checks w.
Proof.
  assert (∀ l, verdict policy l = Returned None) as Hv.
  { intros l. unfold verdict. by rewrite Ha, Hd. }
  eexists _, _, _, _.
  split; [apply groupChanges_run|].
  split; [apply getInvalidLicenseChanges_run|].
  destruct (final_buckets policy
              (group_result (length (requests w)) changes))
    as (_ & Hu & Hr & Hf).
  split_and!.
  - rewrite Hf. apply filter_none.
    intros c _ (l & _ & _ & Hl)%signal_Forbidden. by rewrite Hv in Hl.
  - rewrite Hr. apply filter_none.
    intros c _ (l & _ & _ & Hl)%signal_Unresolved. by rewrite Hv in Hl.
  - rewrite Hu. f_equal. apply list_filter_iff.
    intros c. apply signal_NoAssertion.
  - simpl. rewrite loop_checks_none; [by rewrite app_nil_r|].
    intros l. unfold verdict_checks. by rewrite Ha, Hd.
Qed.

(** X2. When [allow] is configured as the empty list, every change of
    the [licensed] group is forbidden except those whose license is
    "NOASSERTION", nothing is unresolved, and [spdxSatisfies] is never
    called, whatever [deny] is. *)
Theorem empty_allow_forbids_everything changes policy w
    (Ha : allow policy = Some []) :
  ∃ g w1 r w',
    groupChanges changes w = (Returned g, w1)
    ∧ getInvalidLicenseChanges changes policy w = (Returned r, w')
    ∧ forbidden r
      = filter (λ c, license c ≠ Some "NOASSERTION") (Grouped.licensed g)
    ∧ unresolved r = []
    ∧ checks w' = checks w.
Proof.
  assert (∀ l, verdict policy l = Returned (Some false)) as Hv.
  { intros l. unfold verdict. by rewrite Ha. }
  eexists _, _, _, _.
  split; [apply groupChanges_run|].
  split; [apply getInvalidLicenseChanges_run|].
  destruct (final_buckets policy
              (group_result (length (requests w)) changes))
    as (_ & _ & Hr & Hf).
  split_and!.
  - rewrite Hf. apply filter_ext_in.
    intros c [_ Hl]%group_licensed_elem. rewrite signal_Forbidden. split.
    + intros (l & Hc & Hna & _). congruence.
    + intros Hna. destruct (license c) as [l|] eqn:Hc; [|done].
      exists l. split_and!; [done|congruence|apply Hv].
  - rewrite Hr. apply filter_none.
    intros c _ (l & _ & _ & Hl)%signal_Unresolved. by rewrite Hv in Hl.
  - simpl. rewrite loop_checks_none; [by rewrite app_nil_r|].
    intros l. unfold verdict_checks. by rewrite Ha.
Qed.

(** X3. With [deny] configured and [allow] absent, a change of the
    [licensed] group whose license satisfies no expression of [deny]
    (all checks answer [false]; an empty [deny] included) is in none of
    the buckets. *)
Theorem deny_unsatisfied_is_accepted changes policy denied w
    (Ha : allow policy = None) (Hd : deny policy = Some denied) :
  ∃ g w1 r w',
    groupChanges changes w = (Returned g, w1)
    ∧ getInvalidLicenseChanges changes policy w = (Returned r, w')
    ∧ ∀ c l,
        c ∈ Grouped.licensed g → license c = Some l → l ≠ "NOASSERTION" →
        (∀ e, e ∈ denied → spdx_satisfies l e = Some false) →
        (c ∉ forbidden r) ∧ (c ∉ unresolved r) ∧ (c ∉ unlicensed r).
Proof.
  eexists _, _, _, _.
  split; [apply groupChanges_run|].
  split; [apply getInvalidLicenseChanges_run|].
  intros c l Hin Hl Hna Hall.
  eapply accepted_in_no_bucket; [done..|].
  left. unfold verdict. rewrite Ha, Hd.
  by rewrite (find_outcome_all_false _ _ Hall).
Qed.

(** X4. The search through [allow] stops at the first expression the
    license satisfies: when the expressions before it answer [false],
    the change is in none of the buckets, whatever follows in the list
    (a malformed expression included), and the checks made for the
    license are exactly those up to the match, made once. *)
Theorem allow_match_short_circuits changes policy before e after w
    (Ha : allow policy = Some (before ++ e :: after)) :
  ∃ g w1 r w',
    groupChanges changes w = (Returned g, w1)
    ∧ getInvalidLicenseChanges changes policy w = (Returned r, w')
    ∧ ∃ new, checks w' = checks w ++ new
             ∧ ∀ c l,
                 c ∈ Grouped.licensed g → license c = Some l →
                 l ≠ "NOASSERTION" →
                 (∀ e', e' ∈ before → spdx_satisfies l e' = Some false) →
                 spdx_satisfies l e = Some true →
                 (c ∉ forbidden r) ∧ (c ∉ unresolved r)
                 ∧ (c ∉ unlicensed r)
                 ∧ checks_for l new = (λ x, (l, x)) <$> (before ++ [e]).
Proof.
  eexists _, _, _, _.
  split; [apply groupChanges_run|].
  split; [apply getInvalidLicenseChanges_run|].
  eexists. split; [done|].
  intros c l Hin Hl Hna Hbefore He.
  destruct (find_outcome_app_false l before (e :: after) Hbefore)
    as [Ho Hc].
  simpl in Ho, Hc. rewrite He in Ho, Hc.
  assert (verdict policy l = Returned (Some true)) as Hv.
  { unfold verdict. by rewrite Ha, Ho. }
  destruct (accepted_in_no_bucket policy _ _ c l Hin Hl Hna (or_introl Hv))
    as (Hf & Hr & Hu).
  split_and!; [done..|].
  rewrite run_checks_for by done. cbv zeta. rewrite Hv.
  pose proof (carriers_length _ _ _ Hin Hl) as Hn.
  destruct (length (carriers l _)) as [|n]; [lia|].
  simpl. rewrite app_nil_r. unfold verdict_checks.
  by rewrite Ha, Hc, fmap_app.
Qed.

(** X5. A malformed expression that is reached before any match makes
    the change unresolved, whatever follows it in the list: in [allow],
    or in [deny] when [allow] is absent, if the expressions before it
    answer [false] and the check against it throws, the change is in
    [unresolved] and not in [forbidden]. *)
Theorem malformed_entry_before_match_is_unresolved
    changes policy before bad after w
    (Hp : allow policy = Some (before ++ bad :: after)
          ∨ (allow policy = None
             ∧ deny policy = Some (before ++ bad :: after))) :
  ∃ g w1 r w',
    groupChanges changes w = (Returned g, w1)
    ∧ getInvalidLicenseChanges changes policy w = (Returned r, w')
    ∧ ∀ c l,
        c ∈ Grouped.licensed g → license c = Some l → l ≠ "NOASSERTION" →
        (∀ e', e' ∈ before → spdx_satisfies l e' = Some false) →
        spdx_satisfies l bad = None →
        c ∈ unresolved r ∧ (c ∉ forbidden r) ∧ (c ∉ unlicensed r).
Proof.
  eexists _, _, _, _.
  split; [apply groupChanges_run|].
  split; [apply getInvalidLicenseChanges_run|].
  intros c l Hin Hl Hna Hbefore Hbad.
  destruct (find_outcome_app_false l before (bad :: after) Hbefore)
    as [Ho _].
  simpl in Ho. rewrite Hbad in Ho.
  assert (verdict policy l = Thrown) as Hv.
  { unfold verdict. destruct Hp as [Ha|[Ha Hd]].
    - by rewrite Ha, Ho.
    - by rewrite Ha, Hd, Ho. }
  rewrite in_forbidden, in_unresolved, in_unlicensed.
  split; [|split].
  - split; [done|]. apply signal_Unresolved. by exists l.
  - intros [_ (l' & Hl' & _ & Hv')%signal_Forbidden]. congruence.
  - intros [Hu|[_ Hs%signal_NoAssertion]]; [|congruence].
    by eapply not_in_unlicensed_group.
Qed.

(** X6. Every change of [forbidden] or [unresolved] is not removed and
    has a license string other than "NOASSERTION"; every change of
    [unlicensed] is not removed and has no license or the license
    "NOASSERTION". *)
Theorem bucket_members_have_expected_license changes policy w :
  ∃ r w',
    getInvalidLicenseChanges changes policy w = (Returned r, w')
    ∧ (∀ c, c ∈ forbidden r ∨ c ∈ unresolved r →
            change_type c ≠ removed
            ∧ ∃ l, license c = Some l ∧ l ≠ "NOASSERTION")
    ∧ (∀ c, c ∈ unlicensed r →
            change_type c ≠ removed
            ∧ (license c = None ∨ license c = Some "NOASSERTION")).
Proof.
  eexists _, _. split; [apply getInvalidLicenseChanges_run|]. split.
  - intros c. rewrite in_forbidden, in_unresolved.
    intros [[Hin Hs]|[Hin Hs]];
      apply group_licensed_elem in Hin as [Ht _]; (split; [done|]).
    + apply signal_Forbidden in Hs as (l & ? & ? & _). by exists l.
    + apply signal_Unresolved in Hs as (l & ? & ? & _). by exists l.
  - intros c. rewrite in_unlicensed.
    intros [[Ht Hl]%group_unlicensed_elem|[Hin Hs%signal_NoAssertion]].
    + split; [done|by left].
    + apply group_licensed_elem in Hin as [Ht _]. split; [done|by right].
Qed.

(** X7. The buckets keep the order of the groups: [forbidden] and
    [unresolved] are sublists of the [licensed] group, and [unlicensed]
    is the [unlicensed] group followed by a sublist of the [licensed]
    group. *)
Theorem buckets_keep_order changes policy w :
  ∃ g w1 r w',
    groupChanges changes w = (Returned g, w1)
    ∧ getInvalidLicenseChanges changes policy w = (Returned r, w')
    ∧ forbidden r `sublist_of` Grouped.licensed g
    ∧ unresolved r `sublist_of` Grouped.licensed g
    ∧ ∃ rest, unlicensed r = Grouped.unlicensed g ++ rest
              ∧ rest `sublist_of` Grouped.licensed g.
Proof.
  eexists _, _, _, _.
  split; [apply groupChanges_run|].
  split; [apply getInvalidLicenseChanges_run|].
  destruct (final_buckets policy
              (group_result (length (requests w)) changes))
    as (_ & Hu & Hr & Hf).
  rewrite Hu, Hr, Hf.
  split; [apply sublist_filter|]. split; [apply sublist_filter|].
  eexists. split; [done|apply sublist_filter].
Qed.

Lemma placement_partition changes :
  filter directly_licensed changes
  ++ filter directly_unlicensed changes
  ++ filter needs_lookup changes
  ≡ₚ filter (λ c, change_type c ≠ removed) changes.
Proof.
  induction changes as [|c rest IH]; [done|].
  rewrite !filter_cons.
  destruct (decide (change_type c ≠ removed)) as [Ht|Ht].
  - destruct (license c) as [l|] eqn:Hl.
    + rewrite (decide_False (P := directly_unlicensed c))
        by (intros (_ & ? & _); congruence).
      destruct (decide (truncatedDGLicense l = true
                        ∧ source_repository_url c ≠ None)) as [Hn|Hn].
      * rewrite (decide_False (P := directly_licensed c))
          by (intros (_ & l' & Hl' & Hno); apply Hno;
              destruct Hn; split; congruence).
        rewrite (decide_True (P := needs_lookup c))
          by (unfold needs_lookup; rewrite Hl; tauto).
        rewrite <- IH, !app_assoc. symmetry. apply Permutation_middle.
      * rewrite (decide_True (P := directly_licensed c))
          by (split; [done|]; by exists l).
        rewrite (decide_False (P := needs_lookup c))
          by (unfold needs_lookup; rewrite Hl; tauto).
        simpl. by rewrite IH.
    + rewrite (decide_False (P := directly_licensed c))
        by (intros (_ & l' & ? & _); congruence).
      destruct (decide (source_repository_url c = None)) as [Hu|Hu].
      * rewrite (decide_True (P := directly_unlicensed c)) by done.
        rewrite (decide_False (P := needs_lookup c))
          by (intros (_ & ? & _); done).
        rewrite <- IH. symmetry. apply Permutation_middle.
      * rewrite (decide_False (P := directly_unlicensed c))
          by (intros (_ & _ & ?); done).
        rewrite (decide_True (P := needs_lookup c))
          by (unfold needs_lookup; by rewrite Hl).
        rewrite <- IH, !app_assoc. symmetry. apply Permutation_middle.
  - rewrite (decide_False (P := directly_licensed c)) by (intros []; done).
    rewrite (decide_False (P := directly_unlicensed c)) by (intros []; done).
    rewrite (decide_False (P := needs_lookup c)) by (intros []; done).
    done.
Qed.

Lemma resolve_all_erase n changes :
  (λ c, with_license c None) <$> resolve_all n changes
  = (λ c, with_license c None) <$> changes.
Proof.
  revert n. induction changes as [|c rest IH]; intros n; simpl; [done|].
  destruct (lookup_of c); simpl; by rewrite IH.
Qed.

Lemma group_result_erase n changes :
  let g := group_result n changes in
  (λ c, with_license c None)
    <$> (Grouped.licensed g ++ Grouped.unlicensed g)
  ≡ₚ (λ c, with_license c None)
       <$> filter (λ c, change_type c ≠ removed) changes.
Proof.
  intros g. subst g. unfold group_result.
  cbn [Grouped.licensed Grouped.unlicensed].
  set (resolved := resolve_all n (filter needs_lookup changes)).
  rewrite <- placement_partition, !fmap_app.
  rewrite <- (resolve_all_erase n (filter needs_lookup changes)).
  fold resolved.
  assert (filter (λ c, license c ≠ None) resolved
          ++ filter (λ c, license c = None) resolved ≡ₚ resolved) as Hres.
  { rewrite (comm (++)).
    apply (filter_app_complement (λ c, license c = None)). }
  rewrite <- Hres at 3. rewrite fmap_app, <- !app_assoc.
  f_equiv. rewrite !app_assoc. f_equiv. apply (comm (++)).
Qed.

Lemma group_result_length n changes :
  let g := group_result n changes in
  length (Grouped.licensed g) + length (Grouped.unlicensed g)
  = length (filter (λ c, change_type c ≠ removed) changes).
Proof.
  intros g. pose proof (group_result_erase n changes) as Hp.
  apply Permutation_length in Hp.
  by rewrite !length_fmap, length_app in Hp.
Qed.

(** X8. [groupChanges] neither loses nor duplicates a change that is not
    removed: up to the license, the two groups together are a
    permutation of those changes, so the groups have as many members as
    there are such changes; and a change that comes with a license is
    in [licensed] as it is. *)
Theorem groupChanges_conserves_changes changes w :
  ∃ g w',
    groupChanges changes w = (Returned g, w')
    ∧ (λ c, with_license c None)
        <$> (Grouped.licensed g ++ Grouped.unlicensed g)
      ≡ₚ (λ c, with_license c None)
           <$> filter (λ c, change_type c ≠ removed) changes
    ∧ length (Grouped.licensed g) + length (Grouped.unlicensed g)
      = length (filter (λ c, change_type c ≠ removed) changes)
    ∧ ∀ c l, c ∈ changes → change_type c ≠ removed →
             license c = Some l → c ∈ Grouped.licensed g.
Proof.
  eexists _, _. split; [apply groupChanges_run|].
  split; [apply group_result_erase|].
  split; [apply group_result_length|].
  intros c l. apply group_keeps_licensed.
Qed.

Lemma signal_filters_length policy (l : list Change) :
  (length (filter (λ c, signal policy c = Forbidden) l)
   + length (filter (λ c, signal policy c = Unresolved) l)
   + length (filter (λ c, signal policy c = NoAssertion) l)
   ≤ length l)%nat.
Proof.
  induction l as [|c l IH]; [done|].
  rewrite !filter_cons.
  destruct (signal policy c); repeat case_decide; simpl; try done; lia.
Qed.

(** X9. The three buckets together never hold more changes than the
    input has changes that are not removed. *)
Theorem buckets_hold_at_most_the_kept_changes changes policy w :
  ∃ r w',
    getInvalidLicenseChanges changes policy w = (Returned r, w')
    ∧ (length (forbidden r) + length (unresolved r)
       + length (unlicensed r)
       ≤ length (filter (λ c, change_type c ≠ removed) changes))%nat.
Proof.
  eexists _, _. split; [apply getInvalidLicenseChanges_run|].
  destruct (final_buckets policy
              (group_result (length (requests w)) changes))
    as (_ & Hu & Hr & Hf).
  rewrite Hu, Hr, Hf, length_app.
  pose proof (group_result_length (length (requests w)) changes) as Hlen.
  pose proof (signal_filters_length policy
                (Grouped.licensed
                   (group_result (length (requests w)) changes))).
  cbv zeta in Hlen. lia.
Qed.

Lemma lookups_length changes :
  (length (lookups (filter needs_lookup changes))
   ≤ length (filter (λ c, change_type c ≠ removed ∧ license c = None
                          ∧ source_repository_url c ≠ None) changes))%nat.
Proof.
  unfold lookups. rewrite length_fmap.
  induction changes as [|c rest IH]; [done|].
  rewrite !filter_cons.
  destruct (decide (needs_lookup c)) as [(Ht & Hu & Hn)|Hn].
  - change (omap lookup_of (c :: filter needs_lookup rest))
      with (match lookup_of c with
            | Some gh => gh :: omap lookup_of (filter needs_lookup rest)
            | None => omap lookup_of (filter needs_lookup rest)
            end).
    destruct (lookup_of c) as [gh|] eqn:Hlookup.
    + rewrite decide_True; [cbn [length]; lia|].
      split_and!; [done| |done].
      unfold lookup_of in Hlookup. by destruct (license c).
    + case_decide; cbn [length]; lia.
  - case_decide; cbn [length]; lia.
Qed.

Lemma lookups_per_change changes :
  lookups (filter needs_lookup changes)
  = omap (λ c, if decide (change_type c = removed) then None
               else (λ gh, (owner gh, repo gh)) <$> lookup_of c)
      changes.
Proof.
  unfold lookups. induction changes as [|c rest IH]; [done|].
  rewrite filter_cons.
  change (omap ?f (c :: rest))
    with (match f c with
          | Some y => y :: omap f rest
          | None => omap f rest
          end).
  rewrite <- IH. clear IH.
  destruct (decide (needs_lookup c)) as [(Ht & Hu & Hn)|Hn].
  - rewrite decide_False by done.
    change (omap lookup_of (c :: filter needs_lookup rest))
      with (match lookup_of c with
            | Some gh => gh :: omap lookup_of (filter needs_lookup rest)
            | None => omap lookup_of (filter needs_lookup rest)
            end).
    by destruct (lookup_of c).
  - case_decide as Ht; [done|].
    destruct (lookup_of c) as [gh|] eqn:Hlookup; [|done].
    destruct Hn. unfold lookup_of in Hlookup. unfold needs_lookup.
    destruct (license c); [done|].
    destruct (source_repository_url c); done.
Qed.

(** X10. The license requests of a run are exactly one request, in input
    order, for every input change that is not removed, has no license
    and has a URL that [parseGitHubURL] accepts, for the owner and
    repository parsed from that URL: the requests added to the world
    are [lookups] of the changes routed to [ghChanges], which is the
    list of the requests of the input changes taken one by one.  So
    every request is for such a change, every such change gets its
    request, a change that is removed or comes with a license causes
    none, and there are at most as many requests as changes that are
    not removed and have a URL and no license. *)
Theorem requests_come_from_changes_without_license changes policy w :
  ∃ r w',
    getInvalidLicenseChanges changes policy w = (Returned r, w')
    ∧ ∃ new,
        requests w' = requests w ++ new
        ∧ new = lookups (filter needs_lookup changes)
        ∧ new = omap (λ c, if decide (change_type c = removed) then None
                           else (λ gh, (owner gh, repo gh)) <$> lookup_of c)
                  changes
        ∧ (∀ o p, (o, p) ∈ new →
             ∃ c url,
               c ∈ changes ∧ change_type c ≠ removed ∧ license c = None
               ∧ source_repository_url c = Some url
               ∧ ∀ w0, parseGitHubURL url w0
                       = (Returned (Some {| owner := o; repo := p |}), w0))
        ∧ (∀ c url gh,
             c ∈ changes → change_type c ≠ removed → license c = None →
             source_repository_url c = Some url →
             parseGitHubURL url w = (Returned (Some gh), w) →
             (owner gh, repo gh) ∈ new)
        ∧ (length new
           ≤ length (filter (λ c, change_type c ≠ removed
                                  ∧ license c = None
                                  ∧ source_repository_url c ≠ None)
                       changes))%nat.
Proof.
  eexists _, _. split; [apply getInvalidLicenseChanges_run|].
  exists (lookups (filter needs_lookup changes)). split; [done|].
  split; [done|]. split; [apply lookups_per_change|].
  split; [|split; [|apply lookups_length]].
  - intros o p (gh & Hpair & Hgh)%list_elem_of_fmap.
    apply list_elem_of_omap in Hgh as (c & Hc & Hlookup).
    apply list_elem_of_filter in Hc as [(Ht & _) Hc].
    unfold lookup_of in Hlookup.
    destruct (license c) eqn:Hl; [done|].
    destruct (source_repository_url c) as [url|] eqn:Hu; [|done].
    exists c, url. split_and!; [done..|].
    intros w0. rewrite parseGitHubURL_run, Hlookup.
    destruct gh. by injection Hpair as -> ->.
  - intros c url gh Hc Ht Hl Hu Hparse.
    rewrite parseGitHubURL_run in Hparse. injection Hparse as Hparse.
    apply list_elem_of_fmap. exists gh. split; [done|].
    apply list_elem_of_omap. exists c. split.
    + apply list_elem_of_filter. split; [|done].
      unfold needs_lookup. rewrite Hl, Hu. done.
    + unfold lookup_of. by rewrite Hl, Hu.
Qed.

Lemma split_no_separator sep s component :
  component ∈ split sep s → sep ∉ String.list_ascii_of_string component.
Proof.
  revert component. induction s as [|c rest IH]; intros component; simpl.
  { intros ->%list_elem_of_singleton. apply not_elem_of_nil. }
  case_decide as Hc.
  - intros [->|Hin]%elem_of_cons; [apply not_elem_of_nil|by apply IH].
  - destruct (split sep rest) as [|first others].
    + intros ->%list_elem_of_singleton. simpl.
      intros [->|[]%elem_of_nil]%elem_of_cons. done.
    + intros [->|Hin]%elem_of_cons.
      * simpl. intros [->|Hin]%elem_of_cons; [done|].
        by apply (IH first); [left|].
      * apply IH. by right.
Qed.

Lemma parse_result_None url : parse_result url = None → no_repository url.
Proof.
  unfold parse_result, no_repository, path_segments.
  destruct (URL_parse url) as [parsed|]; [|done].
  case_decide as Hhost; [by left|].
  case_decide as Hlen; [|done]. intros _. right.
  destruct (split "/" (pathname parsed)); simpl in *; lia.
Qed.

(** X11. [parseGitHubURL] returns [null] exactly for the URLs that name
    no repository (rejected by the [URL] constructor, host other than
    "github.com", fewer than two path segments); otherwise the owner and
    the repository are the first two path segments, whatever follows
    them, and neither contains a "/". *)
Theorem parseGitHubURL_takes_two_segments url w :
  ∃ res,
    parseGitHubURL url w = (Returned res, w)
    ∧ (res = None ↔ no_repository url)
    ∧ ∀ gh, res = Some gh →
        ∃ parsed,
          URL_parse url = Some parsed
          ∧ host parsed = "github.com"
          ∧ path_segments parsed !! 0 = Some (owner gh)
          ∧ path_segments parsed !! 1 = Some (repo gh)
          ∧ ("/"%char ∉ String.list_ascii_of_string (owner gh))
          ∧ ("/"%char ∉ String.list_ascii_of_string (repo gh)).
Proof.
  exists (parse_result url). split; [apply parseGitHubURL_run|].
  split.
  { split; [apply parse_result_None|apply no_repository_parse_result]. }
  intros gh. unfold parse_result, path_segments.
  destruct (URL_parse url) as [parsed|]; [|done].
  case_decide as Hhost; [done|]. case_decide as Hlen; [done|].
  intros [= <-]. exists parsed. simpl.
  assert (split "/" (pathname parsed) !! 1
          = Some (split "/" (pathname parsed) !!! 1)) as H1
    by (apply list_lookup_lookup_total_lt; lia).
  assert (split "/" (pathname parsed) !! 2
          = Some (split "/" (pathname parsed) !!! 2)) as H2
    by (apply list_lookup_lookup_total_lt; lia).
  split_and!; [done| | | | |].
  - destruct (decide (host parsed = "github.com")); [done|by destruct Hhost].
  - by rewrite lookup_tail.
  - by rewrite lookup_tail.
  - eapply split_no_separator, list_elem_of_lookup_2, H1.
  - eapply split_no_separator, list_elem_of_lookup_2, H2.
Qed.

Lemma split_cons_inv sep s : ∃ first others, split sep s = first :: others.
Proof.
  destruct s as [|c rest]; simpl; [by eexists _, _|].
  case_decide; [by eexists _, _|].
  destruct (split sep rest); by eexists _, _.
Qed.

(** X12. [split] loses nothing: joining the components with the
    separator gives the string back, and there is one component more
    than the string has separators. *)
Theorem split_round_trip sep s :
  String.concat (String sep EmptyString) (split sep s) = s
  ∧ length (split sep s)
    = S (length (filter (λ c, c = sep) (String.list_ascii_of_string s))).
Proof.
  induction s as [|c rest [IHc IHl]]; [done|]. simpl.
  destruct (split_cons_inv sep rest) as (first & others & Hs).
  rewrite Hs in *. rewrite filter_cons. case_decide as Hc.
  - subst c. simpl in *.
    split; [by rewrite IHc|by rewrite IHl].
  - split; [|done].
    simpl in *. destruct others; simpl in *; by rewrite <- IHc.
Qed.

End Further.

(** ** What the report does with a result *)

Section Report.
Context `{!Externals} `{!AnsiStyles}.

Lemma printLicensesError_calls changes call :
  call ∈ printLicensesError changes → ∃ message, call = info message.
Proof.
  unfold printLicensesError.
  intros (c & -> & _)%list_elem_of_fmap. by eexists.
Qed.

Lemma printNullLicenses_calls changes call :
  call ∈ printNullLicenses changes → ∃ message, call = info message.
Proof.
  unfold printNullLicenses. case_decide; [by intros ?%elem_of_nil|].
  intros [->|(c & -> & _)%list_elem_of_fmap]%elem_of_cons; by eexists.
Qed.

Lemma length_pos_nonempty {A} (l : list A) : 0 < length l ↔ l ≠ [].
Proof. destruct l; simpl; split; (done || lia). Qed.

Lemma report_setFailed_iff r :
  (∃ message, setFailed message ∈ printLicensesBlock_callback r)
  ↔ forbidden r ≠ [] ∨ unresolved r ≠ [].
Proof.
  unfold printLicensesBlock_callback. rewrite <- !length_pos_nonempty.
  split.
  - intros [message Hin].
    apply elem_of_app in Hin as [Hin|Hin];
      [|apply elem_of_app in Hin as [Hin|Hin]].
    + case_decide; [by left|by apply elem_of_nil in Hin].
    + case_decide; [by right|by apply elem_of_nil in Hin].
    + by apply printNullLicenses_calls in Hin as [? ?].
  - intros [Hf|Hr].
    + eexists. apply elem_of_app. left. rewrite decide_True by done.
      rewrite !elem_of_app. right. right. by left.
    + eexists. apply elem_of_app. right. apply elem_of_app. left.
      rewrite decide_True by done.
      rewrite !elem_of_app. right. right. by left.
Qed.

(** X13. The license report marks the run as failed exactly when
    [forbidden] or [unresolved] is not empty, and warns exactly when
    [unresolved] is not empty; unlicensed changes alone only produce
    [info] lines. *)
Theorem license_report_fails_iff r :
  ((∃ message, setFailed message ∈ printLicensesBlock_callback r)
   ↔ forbidden r ≠ [] ∨ unresolved r ≠ [])
  ∧ ((∃ message, warning message ∈ printLicensesBlock_callback r)
     ↔ unresolved r ≠ []).
Proof.
  split; [apply report_setFailed_iff|].
  unfold printLicensesBlock_callback. rewrite <- !length_pos_nonempty.
  split.
  - intros [message Hin].
    apply elem_of_app in Hin as [Hin|Hin];
      [|apply elem_of_app in Hin as [Hin|Hin]].
    + case_decide; [|by apply elem_of_nil in Hin].
      rewrite !elem_of_app in Hin.
      destruct Hin as [Hin|[Hin|Hin]].
      * by apply list_elem_of_singleton in Hin.
      * by apply printLicensesError_calls in Hin as [? ?].
      * by apply list_elem_of_singleton in Hin.
    + by case_decide; [|apply elem_of_nil in Hin].
    + by apply printNullLicenses_calls in Hin as [? ?].
  - intros Hr. eexists. apply elem_of_app. right. apply elem_of_app. left.
    rewrite decide_True by done. by left.
Qed.

(** X14. Reporting the result of [getInvalidLicenseChanges] marks the
    run as failed exactly when some change of the [licensed] group has a
    license, other than "NOASSERTION", on which the matching answers
    [false] or throws; so it never does when neither [allow] nor [deny]
    is configured, and changes without license never cause it. *)
Theorem license_check_fails_iff changes policy w :
  ∃ g w1 r w',
    groupChanges changes w = (Returned g, w1)
    ∧ getInvalidLicenseChanges changes policy w = (Returned r, w')
    ∧ ((∃ message, setFailed message ∈ printLicensesBlock_callback r)
       ↔ ∃ c l,
           c ∈ Grouped.licensed g ∧ license c = Some l
           ∧ l ≠ "NOASSERTION"
           ∧ (verdict policy l = Returned (Some false)
              ∨ verdict policy l = Thrown))
    ∧ (allow policy = None → deny policy = None →
       ∀ message, setFailed message ∉ printLicensesBlock_callback r).
Proof.
  eexists _, _, _, _.
  split; [apply groupChanges_run|].
  split; [apply getInvalidLicenseChanges_run|].
  set (g := group_result (length (requests w)) changes).
  set (r := invalidLicenseChanges (final_locals policy g)).
  assert ((∃ message, setFailed message ∈ printLicensesBlock_callback r)
          ↔ ∃ c l,
              c ∈ Grouped.licensed g ∧ license c = Some l
              ∧ l ≠ "NOASSERTION"
              ∧ (verdict policy l = Returned (Some false)
                 ∨ verdict policy l = Thrown)) as Hiff.
  { rewrite report_setFailed_iff. split.
    - intros [Hne|Hne].
      + destruct (forbidden r) as [|c cs] eqn:Hf; [done|].
        assert (c ∈ forbidden r) as Hc by (rewrite Hf; by left).
        apply in_forbidden in Hc as [Hin Hs].
        apply signal_Forbidden in Hs as (l & ? & ? & ?).
        exists c, l. split_and!; [done..|by left].
      + destruct (unresolved r) as [|c cs] eqn:Hf; [done|].
        assert (c ∈ unresolved r) as Hc by (rewrite Hf; by left).
        apply in_unresolved in Hc as [Hin Hs].
        apply signal_Unresolved in Hs as (l & ? & ? & ?).
        exists c, l. split_and!; [done..|by right].
    - intros (c & l & Hin & Hl & Hna & [Hv|Hv]).
      + left. assert (c ∈ forbidden r) as Hc.
        { apply in_forbidden. split; [done|].
          apply signal_Forbidden. by exists l. }
        intros Hnil. rewrite Hnil in Hc. by apply elem_of_nil in Hc.
      + right. assert (c ∈ unresolved r) as Hc.
        { apply in_unresolved. split; [done|].
          apply signal_Unresolved. by exists l. }
        intros Hnil. rewrite Hnil in Hc. by apply elem_of_nil in Hc. }
  split; [exact Hiff|].
  intros Ha Hd message Hin.
  destruct (proj1 Hiff (ex_intro _ message Hin))
    as (c & l & _ & _ & _ & Hv).
  unfold verdict in Hv. rewrite Ha, Hd in Hv. by destruct Hv.
Qed.

End Report.

(** ** Consistency of the classification *)

Section Consistency.
Context `{!Externals}.

Lemma signal_same_license policy c1 c2 :
  license c1 = license c2 → signal policy c1 = signal policy c2.
Proof. unfold signal. by intros ->. Qed.

(** X15. Two changes of the [licensed] group that carry the same license
    are classified alike: each bucket holds both or neither, whichever
    of them met the cache. *)
Theorem same_license_same_bucket changes policy w :
  ∃ g w1 r w',
    groupChanges changes w = (Returned g, w1)
    ∧ getInvalidLicenseChanges changes policy w = (Returned r, w')
    ∧ ∀ c1 c2,
        c1 ∈ Grouped.licensed g → c2 ∈ Grouped.licensed g →
        license c1 = license c2 →
        (c1 ∈ forbidden r ↔ c2 ∈ forbidden r)
        ∧ (c1 ∈ unresolved r ↔ c2 ∈ unresolved r)
        ∧ (c1 ∈ unlicensed r ↔ c2 ∈ unlicensed r).
Proof.
  eexists _, _, _, _.
  split; [apply groupChanges_run|].
  split; [apply getInvalidLicenseChanges_run|].
  intros c1 c2 H1 H2 Hl.
  rewrite !in_forbidden, !in_unresolved, !in_unlicensed.
  rewrite (signal_same_license policy c1 c2 Hl).
  assert (∀ c, c ∈ Grouped.licensed
                     (group_result (length (requests w)) changes) →
               c ∉ Grouped.unlicensed
                     (group_result (length (requests w)) changes)) as Hno.
  { intros c [_ Hc]%group_licensed_elem [_ Hn]%group_unlicensed_elem.
    done. }
  pose proof (Hno _ H1). pose proof (Hno _ H2). tauto.
Qed.

Lemma filter_kept (P : Change → Prop) `{!∀ c, Decision (P c)}
    (changes : list Change) :
  (∀ c, P c → change_type c ≠ removed) →
  filter P (filter (λ c, change_type c ≠ removed) changes)
  = filter P changes.
Proof.
  intros HP. rewrite list_filter_filter. apply list_filter_iff.
  intros c. split; [tauto|]. intros Hc. split; [done|by apply HP].
Qed.

(** X16. Removed changes have no effect at all: the result and the world
    after a run, the requests made included, are those of the run on
    the input without its removed changes. *)
Theorem removed_changes_are_ignored changes policy w :
  getInvalidLicenseChanges changes policy w
  = getInvalidLicenseChanges
      (filter (λ c, change_type c ≠ removed) changes) policy w.
Proof.
  rewrite !getInvalidLicenseChanges_run. cbv zeta. unfold group_result.
  rewrite (filter_kept needs_lookup) by (by intros c []).
  rewrite (filter_kept directly_licensed) by (by intros c []).
  rewrite (filter_kept directly_unlicensed) by (by intros c []).
  done.
Qed.

End Consistency.

(** ** The further properties on sample runs *)

(** X1 on a GPL change, a "NOASSERTION" change and a GitLab change. *)
Lemma no_policy_accepts_everything_sample :
  ∃ r w',
    @getInvalidLicenseChanges stub
      [gpl_change; noassertion_change; gitlab_change] no_policy new_world
    = (Returned r, w')
    ∧ forbidden r = []
    ∧ unresolved r = []
    ∧ unlicensed r = [gitlab_change; noassertion_change]
    ∧ checks w' = [].
Proof.
  destruct (@no_policy_accepts_everything stub
              [gpl_change; noassertion_change; gitlab_change] no_policy
              new_world eq_refl eq_refl)
    as (g & w1 & r & w' & Hg & Hr & Hf & Hu & Hun & Hc).
  vm_compute in Hg. injection Hg as <- <-.
  exists r, w'. split_and!; [exact Hr|exact Hf|exact Hu|exact Hun|exact Hc].
Defined.

(** X2 on a GPL, an MIT and a "NOASSERTION" change. *)
Lemma empty_allow_forbids_everything_sample :
  ∃ r w',
    @getInvalidLicenseChanges stub
      [gpl_change; mit_change; noassertion_change] allow_nothing new_world
    = (Returned r, w')
    ∧ forbidden r = [gpl_change; mit_change]
    ∧ unresolved r = []
    ∧ checks w' = [].
Proof.
  destruct (@empty_allow_forbids_everything stub
              [gpl_change; mit_change; noassertion_change] allow_nothing
              new_world eq_refl)
    as (g & w1 & r & w' & Hg & Hr & Hf & Hu & Hc).
  vm_compute in Hg. injection Hg as <- <-.
  exists r, w'. split_and!; [exact Hr|exact Hf|exact Hu|exact Hc].
Defined.

(** X3 on an MIT change under [deny = ["GPL-3.0"]]. *)
Lemma deny_unsatisfied_is_accepted_sample :
  ∃ r w',
    @getInvalidLicenseChanges stub [mit_change; gpl_change] deny_GPL
      new_world = (Returned r, w')
    ∧ (mit_change ∉ forbidden r)
    ∧ (mit_change ∉ unresolved r)
    ∧ (mit_change ∉ unlicensed r).
Proof.
  destruct (@deny_unsatisfied_is_accepted stub [mit_change; gpl_change]
              deny_GPL ["GPL-3.0"] new_world eq_refl eq_refl)
    as (g & w1 & r & w' & Hg & Hr & H).
  vm_compute in Hg. injection Hg as <- <-.
  exists r, w'. split; [exact Hr|].
  apply (H mit_change "MIT"); [by left|reflexivity|discriminate|].
  intros e ->%list_elem_of_singleton. vm_compute. reflexivity.
Defined.

(** X4 on two MIT changes under an [allow] list whose last entry is
    malformed. *)
Lemma allow_match_short_circuits_sample :
  ∃ r w',
    @getInvalidLicenseChanges stub [mit_change; mit_again] allow_MIT_late
      new_world = (Returned r, w')
    ∧ (mit_change ∉ unresolved r)
    ∧ (mit_change ∉ forbidden r)
    ∧ checks_for "MIT" (checks w') = [("MIT", "GPL-3.0"); ("MIT", "MIT")].
Proof.
  destruct (@allow_match_short_circuits stub [mit_change; mit_again]
              allow_MIT_late ["GPL-3.0"] "MIT"
              ["not a valid expression!!"] new_world eq_refl)
    as (g & w1 & r & w' & Hg & Hr & new & Hnew & H).
  vm_compute in Hg. injection Hg as <- <-.
  exists r, w'. split; [exact Hr|].
  assert (checks w' = new) as -> by exact Hnew.
  destruct (H mit_change "MIT") as (Hf & Hu & _ & Hc);
    [by left|reflexivity|discriminate| |vm_compute; reflexivity|].
  { intros e ->%list_elem_of_singleton. vm_compute. reflexivity. }
  split_and!; [exact Hu|exact Hf|exact Hc].
Defined.

(** X5 on an MIT change under an [allow] list whose first entry is
    malformed. *)
Lemma malformed_entry_before_match_is_unresolved_sample :
  ∃ r w',
    @getInvalidLicenseChanges stub [mit_change] allow_malformed_first
      new_world = (Returned r, w')
    ∧ mit_change ∈ unresolved r
    ∧ (mit_change ∉ forbidden r).
Proof.
  destruct (@malformed_entry_before_match_is_unresolved stub [mit_change]
              allow_malformed_first [] "not a valid expression!!" ["MIT"]
              new_world (or_introl eq_refl))
    as (g & w1 & r & w' & Hg & Hr & H).
  vm_compute in Hg. injection Hg as <- <-.
  exists r, w'. split; [exact Hr|].
  destruct (H mit_change "MIT") as (Hu & Hf & _);
    [by left|reflexivity|discriminate| |vm_compute; reflexivity|].
  { by intros e ?%elem_of_nil. }
  split; [exact Hu|exact Hf].
Defined.

(** X6 on a forbidden change. *)
Lemma bucket_members_have_expected_license_sample :
  ∃ r w',
    @getInvalidLicenseChanges stub [gpl_change; gitlab_change] allow_MIT
      new_world = (Returned r, w')
    ∧ gpl_change ∈ forbidden r
    ∧ ∃ l, license gpl_change = Some l ∧ l ≠ "NOASSERTION".
Proof.
  destruct (@bucket_members_have_expected_license stub
              [gpl_change; gitlab_change] allow_MIT new_world)
    as (r & w' & Hr & H & _).
  exists r, w'. split; [exact Hr|].
  assert (gpl_change ∈ forbidden r) as Hin.
  { vm_compute in Hr. injection Hr as <- _. by left. }
  split; [exact Hin|]. by destruct (H gpl_change (or_introl Hin)).
Defined.

(** X10 on a batch in which one change gets a request. *)
Lemma requests_come_from_changes_without_license_sample :
  ∃ r w',
    @getInvalidLicenseChanges stub
      [widget_change; cut_change; gitlab_change; removed_change] allow_MIT
      new_world = (Returned r, w')
    ∧ ("acme", "widget") ∈ requests w'
    ∧ (length (requests w') ≤ 2)%nat
    ∧ requests w' = [("acme", "widget")].
Proof.
  destruct (@requests_come_from_changes_without_license stub
              [widget_change; cut_change; gitlab_change; removed_change]
              allow_MIT new_world)
    as (r & w' & Hr & new & Hnew & _ & Hexact & _ & Hall & Hlen).
  exists r, w'. split; [exact Hr|].
  assert (requests w' = new) as -> by exact Hnew.
  split; [|split; [|exact Hexact]].
  2: exact Hlen.
  apply (Hall widget_change "https://github.com/acme/widget"
           {| owner := "acme"; repo := "widget" |});
    [by left|discriminate|reflexivity|reflexivity|].
  vm_compute. reflexivity.
Defined.

(** X11 on a GitHub URL. *)
Lemma parseGitHubURL_takes_two_segments_sample :
  ∃ gh,
    @parseGitHubURL stub "https://github.com/acme/widget" new_world
    = (Returned (Some gh), new_world)
    ∧ owner gh = "acme" ∧ repo gh = "widget"
    ∧ ("/"%char ∉ String.list_ascii_of_string (owner gh)).
Proof.
  destruct (@parseGitHubURL_takes_two_segments stub
              "https://github.com/acme/widget" new_world)
    as (res & Hrun & _ & H).
  assert (res = Some {| owner := "acme"; repo := "widget" |}) as ->.
  { vm_compute in Hrun. by injection Hrun as <-. }
  eexists. split; [exact Hrun|].
  destruct (H _ eq_refl) as (parsed & _ & _ & _ & _ & Ho & _).
  split_and!; [reflexivity|reflexivity|exact Ho].
Defined.

(** X14 on a forbidden change: the report fails the run. *)
Lemma license_check_fails_iff_sample :
  ∃ r w' message,
    @getInvalidLicenseChanges stub [gpl_change; mit_change] allow_MIT
      new_world = (Returned r, w')
    ∧ setFailed message ∈ @printLicensesBlock_callback stub_styles r.
Proof.
  destruct (@license_check_fails_iff stub stub_styles
              [gpl_change; mit_change] allow_MIT new_world)
    as (g & w1 & r & w' & Hg & Hr & Hiff & _).
  vm_compute in Hg. injection Hg as <- <-.
  destruct (proj2 Hiff) as [message Hin].
  { exists gpl_change, "GPL-3.0".
    split_and!; [by left|reflexivity|discriminate|].
    left. vm_compute. reflexivity. }
  exists r, w', message. split; [exact Hr|exact Hin].
Defined.

(** X15 on two changes with the same malformed license. *)
Lemma same_license_same_bucket_sample :
  ∃ r w',
    @getInvalidLicenseChanges stub [bogus_change; mit_change; bogus_again]
      allow_MIT new_world = (Returned r, w')
    ∧ bogus_change ∈ unresolved r
    ∧ bogus_again ∈ unresolved r.
Proof.
  destruct (@same_license_same_bucket stub
              [bogus_change; mit_change; bogus_again] allow_MIT new_world)
    as (g & w1 & r & w' & Hg & Hr & H).
  vm_compute in Hg. injection Hg as <- <-.
  exists r, w'. split; [exact Hr|].
  destruct (H bogus_change bogus_again) as (_ & Hiff & _);
    [by left|right; right; by left|reflexivity|].
  assert (bogus_change ∈ unresolved r) as Hin.
  { vm_compute in Hr. injection Hr as <- _. by left. }
  split; [exact Hin|by apply Hiff].
Defined.
